(** * nftstorage.link: the PermaCache client

    A shallow embedding of the client library of the perma-cache service
    (class [PermaCache]: constructor, [headers], [put], [list], [delete],
    [status], and [createRateLimiter]) together with the properties of its
    batch [put] and of [list].

    Conventions of the embedding.
    - A JavaScript string is a Rocq [string] holding its UTF-8 bytes.  Only
      well-formed strings have such bytes: a string with a lone surrogate,
      on which [encodeURIComponent] throws [URIError], is not a value of the
      embedding, and no statement below speaks about such a URL.
    - A parsed JSON body is a [JsVal]; numbers are integral.
    - A promise is modelled by its final state; a suspended [async] body is a
      [Phase], and a schedule says which suspended body is resumed next.
    - Everything the program does to the outside world is recorded in a log
      of [Event]s, newest first.  The network answers a request from the log
      and the request; a promise of the platform ([fetch], [json()], a rate
      limiter) always settles. *)

From Stdlib Require Import ZArith Ascii String Bool Lia.
From stdpp Require Import base list strings.

Local Open Scope Z_scope.
Set Warnings "-register-all".

(** ** JavaScript values and errors *)

Inductive JsVal : Type :=
| JUndefined
| JNull
| JBool (b : bool)
| JNum (n : Z)
| JStr (s : string)
| JArr (items : list JsVal)
| JObj (fields : list (string * JsVal)).

(** What a [throw] or a rejected promise carries.  [Error_ v] is
    [new Error(v)]: its [message] is the string form of [v]. *)
Inductive JsError : Type :=
| Error_ (message : JsVal)
| TypeError_ (what : string)
| SyntaxError_ (what : string)
| HostError (what : string).

(** The completion of a call: it returns or it throws. *)
Inductive Completion (A : Type) : Type :=
| Normal (a : A)
| Throw (e : JsError).
Arguments Normal {A} a.
Arguments Throw {A} e.

(** [!v] is [negb (truthy v)]. *)
Definition truthy (v : JsVal) : bool :=
  match v with
  | JUndefined | JNull => false
  | JBool b => b
  | JNum n => negb (n =? 0)
  | JStr s => negb (String.eqb s "")
  | JArr _ | JObj _ => true
  end.

Fixpoint assoc (k : string) (fields : list (string * JsVal)) : option JsVal :=
  match fields with
  | [] => None
  | (k', v) :: rest => if String.eqb k k' then Some v else assoc k rest
  end.

(** [v.k] for a value that came out of [JSON.parse]: reading a property of
    [null] or [undefined] throws, a missing property reads as [undefined]. *)
Definition get_prop (v : JsVal) (k : string) : Completion JsVal :=
  match v with
  | JUndefined =>
      Throw (TypeError_ ("Cannot read properties of undefined (reading '" +:+ k +:+ "')"))
  | JNull =>
      Throw (TypeError_ ("Cannot read properties of null (reading '" +:+ k +:+ "')"))
  | JObj fields => Normal (default JUndefined (assoc k fields))
  | JBool _ | JNum _ | JStr _ | JArr _ => Normal JUndefined
  end.

(** ** [encodeURIComponent] *)

Definition in_range (lo hi c : ascii) : bool :=
  (N_of_ascii lo <=? N_of_ascii c)%N && (N_of_ascii c <=? N_of_ascii hi)%N.

Fixpoint mem_ascii (c : ascii) (s : string) : bool :=
  match s with
  | EmptyString => false
  | String d rest => Ascii.eqb c d || mem_ascii c rest
  end.

(** The characters [encodeURIComponent] leaves alone:
    [A-Z a-z 0-9 - _ . ! ~ * ' ( )]. *)
Definition uri_unreserved (c : ascii) : bool :=
  in_range "A" "Z" c || in_range "a" "z" c || in_range "0" "9" c
  || mem_ascii c "-_.!~*'()".

Definition hex_digit (n : N) : ascii :=
  default "0"%char (String.get (N.to_nat n) "0123456789ABCDEF").

Definition percent_byte (c : ascii) : string :=
  let n := N_of_ascii c in
  String "%" (String (hex_digit (n / 16)) (String (hex_digit (n mod 16)) "")).

Fixpoint encodeURIComponent (s : string) : string :=
  match s with
  | EmptyString => EmptyString
  | String c rest =>
      (if uri_unreserved c then String c "" else percent_byte c)
      +:+ encodeURIComponent rest
  end.

(** ** URLs

    A parsed [http(s)] URL: everything up to the path (scheme, credentials,
    host, port) serialized in [url_authority], and the path segments.  Query
    and fragment of a base URL do not survive the resolution of a relative
    path, so they are not kept. *)
Record URL : Type := mkURL {
  url_authority : string;
  url_path : list string
}.

(** Cuts a string at every ["/"]. *)
Fixpoint split_slash (s : string) : list string :=
  match s with
  | EmptyString => [EmptyString]
  | String c rest =>
      if Ascii.eqb c "/" then EmptyString :: split_slash rest
      else match split_slash rest with
           | [] => [String c ""]
           | seg :: segs => String c seg :: segs
           end
  end.

(** The URL parser's path state over the segments of the input: [..] drops
    the last segment, [.] adds nothing, and either one, when it ends the
    input, leaves an empty last segment. *)
Fixpoint path_state (path : list string) (segs : list string) : list string :=
  match segs with
  | [] => path
  | seg :: rest =>
      let last := match rest with [] => true | _ => false end in
      if String.eqb seg ".." then
        path_state (removelast path ++ (if last then [""] else [])) rest
      else if String.eqb seg "." then
        path_state (path ++ (if last then [""] else [])) rest
      else path_state (path ++ [seg]) rest
  end.

(** [new URL(rel, base)] for a relative reference [rel] that is a bare path:
    no scheme, no leading slash, no query or fragment, every character a URL
    code point.  The base's path loses its last segment, then the path state
    runs over [rel]. *)
Definition new_URL (rel : string) (base : URL) : URL :=
  {| url_authority := url_authority base;
     url_path := path_state (removelast (url_path base)) (split_slash rel) |}.

Definition URL_toString (u : URL) : string :=
  url_authority u +:+ String.concat "" (map (fun seg => "/" +:+ seg) (url_path u)).

(** [new URL('https://api.nftstorage.link')] *)
Definition default_endpoint : URL :=
  {| url_authority := "https://api.nftstorage.link"; url_path := [""] |}.

(** ** Requests, responses and the log of effects *)

Inductive Method : Type := GET | POST.

Record Request : Type := mkRequest {
  req_method : Method;
  req_url : string;
  req_headers : list (string * string)
}.

(** A [Response]: its status and what [json()] settles with. *)
Record Response : Type := mkResponse {
  resp_status : Z;
  resp_json : Completion JsVal
}.

(** [response.ok]: the status is in the range 200-299. *)
Definition resp_ok (r : Response) : bool :=
  (200 <=? resp_status r) && (resp_status r <=? 299).

Inductive Event : Type :=
| EvGrant (limiter : nat)      (* a caller went on after [await rateLimiter()] *)
| EvFetch (request : Request)  (* [fetch] was called *)
| EvCallback (url : string).   (* [onCachedUrl] was called *)

(** The log, newest event first. *)
Definition Log : Type := list Event.

(** The global [fetch]: what the promise of a request settles with, given
    everything that happened before. *)
Definition Fetch : Type := Log -> Request -> Completion Response.

(** The state of a promise. *)
Inductive Promise (A : Type) : Type :=
| Pending
| ResolvedP (value : A)
| RejectedP (reason : JsError).
Arguments Pending {A}.
Arguments ResolvedP {A} value.
Arguments RejectedP {A} reason.

(** An element of the array [pSettle] resolves with. *)
Inductive SettleResult : Type :=
| Fulfilled (value : JsVal)
| Rejected (reason : JsError).

Definition isFulfilled (r : SettleResult) : bool :=
  match r with Fulfilled _ => true | Rejected _ => false end.

Definition isRejected (r : SettleResult) : bool := negb (isFulfilled r).

(** ** Rate limiters

    A [RateLimiter] is a function object; [lim_id] is its identity.
    [Throttle] is the closure [() => throttle(() => {})] that
    [createRateLimiter] returns, over a queue made by
    [throttledQueue(maxRequests, interval)]: its promise resolves once the
    queue lets the empty function run, and never rejects.  [CustomLimiter] is
    a limiter of the caller, whose promise may reject. *)
Inductive RateLimiter : Type :=
| Throttle (id : nat) (maxRequests interval : Z)
| CustomLimiter (id : nat) (answer : Log -> Completion unit).

Definition lim_id (rl : RateLimiter) : nat :=
  match rl with Throttle id _ _ | CustomLimiter id _ => id end.

(** [await rateLimiter()] *)
Definition await_limiter (rl : RateLimiter) (log : Log) : Completion unit :=
  match rl with
  | Throttle _ _ _ => Normal tt
  | CustomLimiter _ answer => answer log
  end.

Definition MAX_PUT_RETRIES : Z := 5.
Definition RATE_LIMIT_REQUESTS : Z := 100.
Definition RATE_LIMIT_PERIOD : Z := 60 * 1000.

(** [createRateLimiter()]: a new closure over a new queue.  The heap is the
    next unused identity. *)
Definition createRateLimiter (heap : nat) : RateLimiter * nat :=
  (Throttle heap RATE_LIMIT_REQUESTS RATE_LIMIT_PERIOD, S heap).

(** [const globalRateLimiter = createRateLimiter()], run once when the module
    is loaded, and the heap the module leaves behind. *)
Definition globalRateLimiter : RateLimiter := fst (createRateLimiter 0).
Definition heap_after_load : nat := snd (createRateLimiter 0).

(** ** Services and options *)

(** A property that is left out is [None] (it reads as [undefined]). *)
Record Service : Type := mkService {
  endpoint : URL;
  token : option string;
  rateLimiter : option RateLimiter
}.

Record ConstructorOptions : Type := mkConstructorOptions {
  co_token : option string;
  co_endpoint : option URL;
  co_rateLimiter : option RateLimiter
}.

(** [onCachedUrl]: a function of the caller; it sees the log, returns or
    throws. *)
Definition Callback : Type := Log -> string -> Completion unit.

Record PutOptions : Type := mkPutOptions {
  onCachedUrl : option Callback;
  maxRetries : option Z
}.

Record ListOptions : Type := mkListOptions {
  size : option Z;
  page : option Z
}.

(** The body of the [async (url) => ...] given to [urls.map], between two
    suspensions. *)
Inductive Phase : Type :=
| AwaitLimiter (apiUrl : URL)      (* at [await rateLimiter()] *)
| AwaitFetch (request : Request)   (* at [await fetch(...)] *)
| AwaitJson (request : Response)   (* at [await request.json()] *)
| Settled (r : SettleResult).      (* returned or threw *)

Record Task : Type := mkTask {
  t_url : string;
  t_phase : Phase
}.

Definition settled (t : Task) : option SettleResult :=
  match t_phase t with Settled r => Some r | _ => None end.

(** [pSettle(promises)]: pending until every promise has settled, then
    resolved with one result per promise, in the order of the array. *)
Definition pSettle (tasks : list Task) : Promise (list SettleResult) :=
  match mapM settled tasks with
  | Some results => ResolvedP results
  | None => Pending
  end.

Module PermaCache.

(** [new PermaCache({token, endpoint = new URL(...), rateLimiter})] *)
Definition constructor (options : option ConstructorOptions) (heap : nat)
  : Completion (Service * nat) :=
  match options with
  | None => Throw (TypeError_ "Cannot destructure property 'token' of 'undefined'")
  | Some o =>
      let (limiter, heap') :=
        match co_rateLimiter o with
        | Some rl => (rl, heap)
        | None => createRateLimiter heap
        end in
      Normal ({| token := co_token o;
                 endpoint := default default_endpoint (co_endpoint o);
                 rateLimiter := Some limiter |}, heap')
  end.

(** [if (!token) throw new Error('missing token')] *)
Definition headers (token : option string) : Completion (list (string * string)) :=
  match token with
  | None => Throw (Error_ (JStr "missing token"))
  | Some t =>
      if String.eqb t "" then Throw (Error_ (JStr "missing token"))
      else Normal [("Authorization", "Bearer " +:+ t);
                   ("X-Client", "nftstorage.link/js")]
  end.

Section Put.
Variable fetch : Fetch.
Variable endpoint : URL.
Variable rateLimiter : RateLimiter.
Variable headers : list (string * string).
Variable onCachedUrl : option Callback.

(** [new URL(`perma-cache/${encodeURIComponent(url)}`, endpoint)] *)
Definition apiUrl (url : string) : URL :=
  new_URL ("perma-cache/" +:+ encodeURIComponent url) endpoint.

(** The request of [fetch(apiUrl.toString(), {method: 'POST', headers})] *)
Definition request_of (apiUrl : URL) : Request :=
  {| req_method := POST;
     req_url := URL_toString apiUrl;
     req_headers := headers |}.

(** The synchronous start of the mapped function: up to the call of
    [rateLimiter()]. *)
Definition start (url : string) : Task :=
  {| t_url := url; t_phase := AwaitLimiter (apiUrl url) |}.

(** The mapped function from one suspension to the next. *)
Definition resume (url : string) (ph : Phase) (log : Log) : Phase * Log :=
  match ph with
  | AwaitLimiter apiUrl =>
      match await_limiter rateLimiter log with
      | Throw e => (Settled (Rejected e), log)
      | Normal _ =>
          let request := request_of apiUrl in
          (AwaitFetch request,
           EvFetch request :: EvGrant (lim_id rateLimiter) :: log)
      end
  | AwaitFetch request =>
      match fetch log request with
      | Throw e => (Settled (Rejected e), log)
      | Normal response => (AwaitJson response, log)
      end
  | AwaitJson request =>
      match resp_json request with
      | Throw e => (Settled (Rejected e), log)
      | Normal res =>
          if negb (resp_ok request) then
            match get_prop res "message" with
            | Throw e => (Settled (Rejected e), log)
            | Normal message => (Settled (Rejected (Error_ message)), log)
            end
          else
            match onCachedUrl with
            | None =>
                (Settled (Rejected (TypeError_ "onCachedUrl is not a function")), log)
            | Some callback =>
                match callback log url with
                | Throw e => (Settled (Rejected e), EvCallback url :: log)
                | Normal _ => (Settled (Fulfilled res), EvCallback url :: log)
                end
            end
      end
  | Settled r => (Settled r, log)
  end.

(** The event loop resumes the [i]-th mapped function. *)
Definition resume_at (st : list Task * Log) (i : nat) : list Task * Log :=
  match st.1 !! i with
  | None => st
  | Some t =>
      let (ph, log) := resume (t_url t) (t_phase t) st.2 in
      (<[i := {| t_url := t_url t; t_phase := ph |}]> st.1, log)
  end.

Definition run (sched : list nat) (st : list Task * Log) : list Task * Log :=
  fold_left resume_at sched st.
End Put.

(** [PermaCache.put(service, urls, options)] under a schedule of
    resumptions: the state of the returned promise once the schedule has
    run, and the log. *)
Definition put (fetch : Fetch) (service : Service) (urls : list string)
    (options : option PutOptions) (sched : list nat) (log : Log)
  : Promise (list SettleResult) * Log :=
  let rateLimiter := default globalRateLimiter (rateLimiter service) in
  let o := default {| onCachedUrl := None; maxRetries := None |} options in
  let maxRetries := default MAX_PUT_RETRIES (maxRetries o) in
  match headers (token service) with
  | Throw e => (RejectedP e, log)
  | Normal headers =>
      let st := run fetch rateLimiter headers (onCachedUrl o) sched
                    (map (start (endpoint service)) urls, log) in
      (pSettle st.1, st.2)
  end.

(** [PermaCache.list(service, options)] *)
Definition list_ (fetch : Fetch) (service : Service)
    (options : option ListOptions) (log : Log) : Promise JsVal * Log :=
  let rateLimiter := default globalRateLimiter (rateLimiter service) in
  let url := new_URL "perma-cache/" (endpoint service) in
  match headers (token service) with
  | Throw e => (RejectedP e, log)
  | Normal headers =>
      match await_limiter rateLimiter log with
      | Throw e => (RejectedP e, log)
      | Normal _ =>
          let request := {| req_method := GET;
                            req_url := URL_toString url;
                            req_headers := headers |} in
          let log := EvFetch request :: EvGrant (lim_id rateLimiter) :: log in
          match fetch log request with
          | Throw e => (RejectedP e, log)
          | Normal response =>
              match resp_json response with
              | Throw e => (RejectedP e, log)
              | Normal result =>
                  match get_prop result "ok" with
                  | Throw e => (RejectedP e, log)
                  | Normal ok =>
                      if negb (truthy ok) then
                        match get_prop result "error" with
                        | Throw e => (RejectedP e, log)
                        | Normal error =>
                            match get_prop error "message" with
                            | Throw e => (RejectedP e, log)
                            | Normal message => (RejectedP (Error_ message), log)
                            end
                        end
                      else (ResolvedP result, log)
                  end
              end
          end
      end
  end.

(** [static async delete(service, urls) {}] and
    [static async status(service) {}] *)
Definition delete (service : Service) (urls : list string) (log : Log)
  : Promise JsVal * Log := (ResolvedP JUndefined, log).

Definition status (service : Service) (log : Log) : Promise JsVal * Log :=
  (ResolvedP JUndefined, log).

End PermaCache.

(** ** Schedules *)

Fixpoint occurrences (i : nat) (sched : list nat) : nat :=
  match sched with
  | [] => 0
  | j :: rest => (if Nat.eqb i j then 1 else 0) + occurrences i rest
  end.

(** A schedule is complete for [n] mapped functions when it resumes each of
    them at each of its three suspensions. *)
Definition complete (n : nat) (sched : list nat) : bool :=
  forallb (fun i => Nat.leb 3 (occurrences i sched)) (seq 0 n).

(** Each mapped function runs to its end before the next one is resumed. *)
Definition one_by_one (n : nat) : list nat :=
  flat_map (fun i => [i; i; i]) (seq 0 n).

(** All requests are sent, then all responses arrive in reverse order, then
    the bodies are read in order. *)
Definition interleaved (n : nat) : list nat :=
  seq 0 n ++ rev (seq 0 n) ++ seq 0 n.

(** ** What the properties speak about *)

Definition token_missing (token : option string) : bool :=
  match token with
  | None => true
  | Some t => String.eqb t ""
  end.

(** The limiter and the callback a static operation ends up with. *)
Definition limiter_of (service : Service) : RateLimiter :=
  default globalRateLimiter (rateLimiter service).

Definition callback_of (options : option PutOptions) : option Callback :=
  onCachedUrl (default {| onCachedUrl := None; maxRetries := None |} options).

(** How far a mapped function has come. *)
Definition rank (ph : Phase) : nat :=
  match ph with
  | AwaitLimiter _ => 0
  | AwaitFetch _ => 1
  | AwaitJson _ => 2
  | Settled _ => 3
  end.

Section Outcome.
Variable fetch : Fetch.
Variable ep : URL.
Variable rl : RateLimiter.
Variable hs : list (string * string).
Variable cb : option Callback.

(** The request the batch sends for [url]. *)
Definition request_for (url : string) : Request :=
  PermaCache.request_of hs (PermaCache.apiUrl ep url).

(** The request of an item was sent, after the limiter let it pass. *)
Definition sent (url : string) (log : Log) : Prop :=
  EvFetch (request_for url) ∈ log
  /\ exists h, await_limiter rl h = Normal tt.

(** The result of an item comes from its own URL alone: its limiter
    promise rejected, or its own request was sent and failed, or its own
    request was sent and the body of the mapped function ran on the
    response to it. *)
Inductive explains (url : string) (log : Log) : SettleResult -> Prop :=
| by_limiter h e :
    await_limiter rl h = Throw e ->
    explains url log (Rejected e)
| by_network h e :
    sent url log ->
    fetch h (request_for url) = Throw e ->
    explains url log (Rejected e)
| by_response h h' response r :
    sent url log ->
    fetch h (request_for url) = Normal response ->
    (PermaCache.resume fetch rl hs cb url (AwaitJson response) h').1 = Settled r ->
    explains url log r.

(** What a suspended mapped function for [url] can be. *)
Inductive item_inv (url : string) (log : Log) : Phase -> Prop :=
| inv_limiter :
    item_inv url log (AwaitLimiter (PermaCache.apiUrl ep url))
| inv_fetch :
    sent url log ->
    item_inv url log (AwaitFetch (request_for url))
| inv_json h response :
    sent url log ->
    fetch h (request_for url) = Normal response ->
    item_inv url log (AwaitJson response)
| inv_settled r :
    explains url log r ->
    item_inv url log (Settled r).

(** The events a batch over [urls] adds to the log. *)
Inductive batch_event (urls : list string) : Event -> Prop :=
| be_grant : batch_event urls (EvGrant (lim_id rl))
| be_fetch url : url ∈ urls -> batch_event urls (EvFetch (request_for url))
| be_callback url : url ∈ urls -> batch_event urls (EvCallback url).

(** The invariant of a running batch over [urls] that started with the
    log [log0]. *)
Definition state_inv (urls : list string) (log0 : Log) (st : list Task * Log) : Prop :=
  map t_url st.1 = urls
  /\ Forall (fun t => item_inv (t_url t) st.2 (t_phase t)) st.1
  /\ exists new, st.2 = new ++ log0 /\ Forall (batch_event urls) new.
End Outcome.

Fixpoint count_fetch (url : string) (log : Log) : nat :=
  match log with
  | [] => 0
  | EvFetch request :: rest =>
      (if String.eqb (req_url request) url then 1 else 0) + count_fetch url rest
  | _ :: rest => count_fetch url rest
  end.

Fixpoint count_callback (url : string) (log : Log) : nat :=
  match log with
  | [] => 0
  | EvCallback u :: rest =>
      (if String.eqb u url then 1 else 0) + count_callback url rest
  | _ :: rest => count_callback url rest
  end.

(** ** Scenarios *)

Module Scenario.

Definition service : Service :=
  {| endpoint := default_endpoint; token := Some "secret"; rateLimiter := None |}.

Definition api (url : string) : string :=
  URL_toString (PermaCache.apiUrl default_endpoint url).

Definition entry (request : Request) : JsVal :=
  JObj [("url", JStr (req_url request)); ("size", JNum 42)].

(** Every request succeeds with status 200. *)
Definition healthy : Fetch :=
  fun _ request => Normal {| resp_status := 200; resp_json := Normal (entry request) |}.

(** The first two requests for [url] get status 500, later ones 200; every
    other request gets 200. *)
Definition flaky (url : string) : Fetch :=
  fun log request =>
    if String.eqb (req_url request) (api url)
       && Nat.leb (count_fetch (api url) log) 2
    then Normal {| resp_status := 500;
                   resp_json := Normal (JObj [("message", JStr "Internal Server Error")]) |}
    else healthy log request.

(** The list request is refused. *)
Definition refusing : Fetch :=
  fun _ _ =>
    Normal {| resp_status := 401;
              resp_json := Normal (JObj [("ok", JBool false);
                                         ("error", JObj [("message", JStr "bad token")])]) |}.

(** A callback that only returns. *)
Definition progress : Callback := fun _ _ => Normal tt.

Definition urls : list string := ["https://a/1"; "https://a/2"].

Definition no_limiter : ConstructorOptions :=
  {| co_token := Some "secret"; co_endpoint := None; co_rateLimiter := None |}.

End Scenario.

(** ** The methods of a client

    [put(urls, options) { return PermaCache.put(this, urls, options) }] and
    its three siblings: the client itself is the service. *)
Module Instance.

Definition put (fetch : Fetch) (this : Service) (urls : list string)
    (options : option PutOptions) (sched : list nat) (log : Log)
  : Promise (list SettleResult) * Log :=
  PermaCache.put fetch this urls options sched log.

Definition list_ (fetch : Fetch) (this : Service) (opts : option ListOptions)
    (log : Log) : Promise JsVal * Log :=
  PermaCache.list_ fetch this opts log.

Definition delete (this : Service) (urls : list string) (log : Log)
  : Promise JsVal * Log :=
  PermaCache.delete this urls log.

Definition status (this : Service) (log : Log) : Promise JsVal * Log :=
  PermaCache.status this log.

End Instance.

(** ** Measures of logs and batches *)


Definition is_callback (e : Event) : bool :=
  match e with EvCallback _ => true | _ => false end.

Definition callbacks (log : Log) : nat := length (List.filter is_callback log).



Definition has_fulfilled (ph : Phase) : bool :=
  match ph with Settled (Fulfilled _) => true | _ => false end.

(** The number of mapped functions whose phase satisfies [p]. *)
Definition tally (p : Phase -> bool) (tasks : list Task) : nat :=
  length (List.filter (fun t => p (t_phase t)) tasks).

(** ** Percent-decoding, the inverse of the encoding *)

Definition hex_value (c : ascii) : N :=
  if in_range "0" "9" c then N_of_ascii c - 48
  else if in_range "A" "F" c then N_of_ascii c - 55
  else if in_range "a" "f" c then N_of_ascii c - 87
  else 0.

Fixpoint percent_decode (s : string) : string :=
  match s with
  | EmptyString => EmptyString
  | String c rest =>
      if Ascii.eqb c "%" then
        match rest with
        | String h (String l rest') =>
            String (ascii_of_N (hex_value h * 16 + hex_value l)) (percent_decode rest')
        | _ => String c (percent_decode rest)
        end
      else String c (percent_decode rest)
  end.

Fixpoint string_forallb (p : ascii -> bool) (s : string) : bool :=
  match s with
  | EmptyString => true
  | String c rest => p c && string_forallb p rest
  end.

(** A URL that the URL parser takes for a dot segment once encoded. *)
Definition dot_segment (url : string) : bool :=
  String.eqb url "." || String.eqb url "..".

(** The directory of an endpoint, serialized: the endpoint without the last
    segment of its path. *)
Definition directory (ep : URL) : string :=
  URL_toString {| url_authority := url_authority ep;
                  url_path := removelast (url_path ep) |}.

(** ** More scenarios *)

Module Cases.

(** A limiter of the caller that refuses every call. *)
Definition closed : RateLimiter :=
  CustomLimiter 9 (fun _ => Throw (HostError "rate limit")).

Definition closed_service : Service :=
  {| endpoint := default_endpoint; token := Some "secret"; rateLimiter := Some closed |}.

(** A callback that throws. *)
Definition failing : Callback := fun _ _ => Throw (HostError "progress bar").

(** Status 500, yet the body says [ok]. *)
Definition contradictory : Fetch :=
  fun _ _ =>
    Normal {| resp_status := 500;
              resp_json := Normal (JObj [("ok", JNum 1); ("count", JNum 0)]) |}.

(** Status 200 with a body that is not JSON. *)
Definition garbled : Fetch :=
  fun _ _ =>
    Normal {| resp_status := 200;
              resp_json := Throw (SyntaxError_ "Unexpected token < in JSON") |}.

End Cases.

(** ** The rate limiter in time *)

(** Modelled from the spec: the queue made by
    [throttledQueue(maxRequests, interval)], whose package is not among the
    sources.  The specification (section 4.1) says of the limiter that a
    call "resolves only when invoking it would not exceed quota invocations
    within any trailing window duration", that calls "queue in invocation
    order and are released in order", and that it "does not reject, only
    delays".  Times are in milliseconds and [released] holds the release
    times so far, newest first.  A call made at [now] is released at the
    earliest time that is not before [now], not before the previous release,
    and at least [interval] after the release [maxRequests] places back. *)
Definition release_time (maxRequests : nat) (interval : Z) (released : list Z)
    (now : Z) : Z :=
  let in_order :=
    match released with
    | [] => now
    | previous :: _ => Z.max now previous
    end in
  match released !! (maxRequests - 1)%nat with
  | Some old => Z.max in_order (old + interval)
  | None => in_order
  end.

(** Modelled from the spec: the release times, newest first, after the calls
    made at the times [calls], one after the other, on a queue that has
    already released at the times [released]. *)
Fixpoint throttledQueue (maxRequests : nat) (interval : Z) (released : list Z)
    (calls : list Z) : list Z :=
  match calls with
  | [] => released
  | now :: rest =>
      throttledQueue maxRequests interval
        (release_time maxRequests interval released now :: released) rest
  end.



(** * Properties *)

Local Open Scope nat_scope.

(** ** Encoding and resolution *)

Example encode_example :
  encodeURIComponent "https://a/1?x=y z" = "https%3A%2F%2Fa%2F1%3Fx%3Dy%20z".
Proof. reflexivity. Qed.

Example resolve_example :
  URL_toString (PermaCache.apiUrl default_endpoint "https://a/1")
  = "https://api.nftstorage.link/perma-cache/https%3A%2F%2Fa%2F1".
Proof. reflexivity. Qed.

Example resolve_drops_last_segment :
  URL_toString (PermaCache.apiUrl
                  {| url_authority := "https://h:8080"; url_path := ["api"; "v1"] |} "x")
  = "https://h:8080/api/perma-cache/x".
Proof. reflexivity. Qed.

(** The URL [".."] is its own encoding, and the parser takes it for a step
    up, out of [perma-cache]. *)
Example resolve_dot_dot :
  URL_toString (PermaCache.apiUrl default_endpoint "..")
  = "https://api.nftstorage.link/".
Proof. reflexivity. Qed.

Lemma mem_ascii_app c s1 s2 :
  mem_ascii c (s1 +:+ s2) = mem_ascii c s1 || mem_ascii c s2.
Proof.
  induction s1 as [| d s1 IH]; simpl; [done |].
  by rewrite IH, orb_assoc.
Qed.

Lemma encode_byte_no_slash c :
  mem_ascii "/" (if uri_unreserved c then String c "" else percent_byte c) = false.
Proof. destruct c as [[] [] [] [] [] [] [] []]; reflexivity. Qed.

(** An encoded component holds no slash: it is one path segment. *)
Lemma encodeURIComponent_no_slash s :
  mem_ascii "/" (encodeURIComponent s) = false.
Proof.
  induction s as [| c s IH]; simpl; [done |].
  by rewrite mem_ascii_app, encode_byte_no_slash, IH.
Qed.

Lemma split_slash_one_segment s :
  mem_ascii "/" s = false -> split_slash s = [s].
Proof.
  induction s as [| c s IH]; cbn [mem_ascii split_slash]; [done |].
  intros H. apply orb_false_iff in H as [Hc Hs].
  rewrite Ascii.eqb_sym in Hc. rewrite Hc, (IH Hs). done.
Qed.

Lemma split_slash_first pre s :
  mem_ascii "/" pre = false ->
  split_slash (pre +:+ String "/" s) = pre :: split_slash s.
Proof.
  induction pre as [| c pre IH].
  - intros _. change ("" +:+ String "/" s) with (String "/" s).
    cbn [split_slash]. by rewrite Ascii.eqb_refl.
  - cbn [mem_ascii]. intros H. apply orb_false_iff in H as [Hc Hpre].
    change (String c pre +:+ String "/" s) with (String c (pre +:+ String "/" s)).
    cbn [split_slash].
    rewrite Ascii.eqb_sym in Hc. by rewrite Hc, (IH Hpre).
Qed.

(** Unless the encoded URL is a dot segment, the path of the request is the
    path of the endpoint without its last segment, then [perma-cache], then
    the encoded URL. *)
Lemma apiUrl_path ep url :
  encodeURIComponent url <> "." ->
  encodeURIComponent url <> ".." ->
  url_path (PermaCache.apiUrl ep url)
  = removelast (url_path ep) ++ ["perma-cache"; encodeURIComponent url].
Proof.
  intros Hdot Hdots. unfold PermaCache.apiUrl, new_URL.
  cbn [url_path].
  assert (split_slash ("perma-cache/" +:+ encodeURIComponent url)
          = ["perma-cache"; encodeURIComponent url]) as ->.
  { change ("perma-cache/" +:+ encodeURIComponent url)
      with ("perma-cache" +:+ String "/" (encodeURIComponent url)).
    rewrite split_slash_first by reflexivity.
    by rewrite (split_slash_one_segment _ (encodeURIComponent_no_slash url)). }
  cbn [path_state].
  replace (String.eqb "perma-cache" "..") with false by reflexivity.
  replace (String.eqb "perma-cache" ".") with false by reflexivity.
  apply String.eqb_neq in Hdot, Hdots. rewrite Hdot, Hdots.
  by rewrite <- app_assoc.
Qed.


Section PutFacts.
Variable fetch : Fetch.
Variable ep : URL.
Variable rl : RateLimiter.
Variable hs : list (string * string).
Variable cb : option Callback.

Local Abbreviation resume := (PermaCache.resume fetch rl hs cb).
Local Abbreviation resume_at := (PermaCache.resume_at fetch rl hs cb).
Local Abbreviation run := (PermaCache.run fetch rl hs cb).
Local Abbreviation sent := (sent ep rl hs).
Local Abbreviation explains := (explains fetch ep rl hs cb).
Local Abbreviation item_inv := (item_inv fetch ep rl hs cb).
Local Abbreviation batch_event := (batch_event ep rl hs).
Local Abbreviation state_inv := (state_inv fetch ep rl hs cb).

Lemma sent_mono url log log' :
  (forall e, e ∈ log -> e ∈ log') -> sent url log -> sent url log'.
Proof. intros Hsub [Hin Hgrant]. split; auto. Qed.

Lemma explains_mono url log log' r :
  (forall e, e ∈ log -> e ∈ log') -> explains url log r -> explains url log' r.
Proof.
  intros Hsub H. destruct H.
  - eapply by_limiter; eauto.
  - eapply by_network; eauto using sent_mono.
  - eapply by_response; eauto using sent_mono.
Qed.

Lemma item_inv_mono url log log' ph :
  (forall e, e ∈ log -> e ∈ log') -> item_inv url log ph -> item_inv url log' ph.
Proof.
  intros Hsub H. destruct H.
  - constructor.
  - constructor. eauto using sent_mono.
  - econstructor; eauto using sent_mono.
  - constructor. eapply explains_mono; eauto.
Qed.

(** One resumption keeps the item's invariant and adds only events of the
    batch. *)
Lemma resume_inv urls url ph log :
  url ∈ urls ->
  item_inv url log ph ->
  item_inv url (resume url ph log).2 (resume url ph log).1
  /\ exists new, (resume url ph log).2 = new ++ log /\ Forall (batch_event urls) new.
Proof.
  intros Hin Hinv. destruct Hinv as [| Hsent | h response Hsent Hresp | r Hr]; simpl.
  - destruct (await_limiter rl log) as [[] | e] eqn:Hlim; simpl.
    + split.
      * constructor. split; [apply elem_of_cons; by left | eauto].
      * exists [EvFetch (request_for ep hs url); EvGrant (lim_id rl)].
        split; [done |]. repeat constructor. done.
    + split; [| by exists []].
      constructor. eapply by_limiter; eauto.
  - destruct (fetch log (request_for ep hs url)) as [response | e] eqn:Hf; simpl.
    + split; [| by exists []]. econstructor; eauto.
    + split; [| by exists []]. constructor. eapply by_network; eauto.
  - assert (forall r log',
               resume url (AwaitJson response) log = (Settled r, log') ->
               (forall e, e ∈ log -> e ∈ log') ->
               item_inv url log' (Settled r)) as Hfin.
    { intros r log' Hres Hsub. constructor.
      eapply by_response with (h := h) (h' := log);
        [by eapply sent_mono | done |].
      by rewrite Hres. }
    simpl in Hfin.
    destruct (resp_json response) as [res | e].
    + destruct (negb (resp_ok response)).
      * destruct (get_prop res "message");
          (split; [by eapply Hfin | by exists []]).
      * destruct cb as [callback |]; [| split; [by eapply Hfin | by exists []]].
        destruct (callback log url);
          (split; [eapply Hfin; [done | intros; apply elem_of_cons; by right]
                  | exists [EvCallback url]; split; [done |];
                    repeat constructor; done]).
    + split; [by eapply Hfin | by exists []].
  - split; [by constructor | by exists []].
Qed.

Lemma resume_rank url ph log :
  Nat.min 3 (S (rank ph)) <= rank (resume url ph log).1.
Proof.
  destruct ph as [a | rq | rs | r]; simpl.
  - destruct (await_limiter rl log); simpl; lia.
  - destruct (fetch log rq); simpl; lia.
  - destruct (resp_json rs) as [res | e]; simpl; [| lia].
    destruct (negb (resp_ok rs)).
    + destruct (get_prop res "message"); simpl; lia.
    + destruct cb as [callback |]; simpl; [| lia].
      destruct (callback log url); simpl; lia.
  - lia.
Qed.

Lemma resume_at_urls st i :
  map t_url (resume_at st i).1 = map t_url st.1.
Proof.
  unfold PermaCache.resume_at. destruct (st.1 !! i) as [t |] eqn:Hi; [| done].
  destruct (resume (t_url t) (t_phase t) st.2) as [ph log]. simpl.
  rewrite list_fmap_insert. simpl. apply list_insert_id.
  by rewrite list_lookup_fmap, Hi.
Qed.

Lemma run_urls sched st :
  map t_url (run sched st).1 = map t_url st.1.
Proof.
  unfold PermaCache.run. revert st.
  induction sched as [| i sched IH]; intros st; [done |].
  simpl. rewrite IH. apply resume_at_urls.
Qed.

Lemma run_length sched st :
  length (run sched st).1 = length st.1.
Proof.
  rewrite <- (length_map t_url), run_urls. apply length_map.
Qed.

Lemma resume_at_inv urls log0 st i :
  state_inv urls log0 st -> state_inv urls log0 (resume_at st i).
Proof.
  intros (Hurls & Hitems & new & Hlog & Hnew).
  pose proof (resume_at_urls st i) as Hu.
  unfold PermaCache.resume_at in *.
  destruct (st.1 !! i) as [t |] eqn:Hi; [| by repeat split; eauto].
  assert (t_url t ∈ urls) as Hin.
  { rewrite <- Hurls. apply list_elem_of_fmap. exists t. split; [done |].
    eapply list_elem_of_lookup_2; eauto. }
  assert (item_inv (t_url t) st.2 (t_phase t)) as Ht.
  { eapply (proj1 (Forall_lookup _ _)) in Hitems; eauto. }
  destruct (resume_inv urls _ _ _ Hin Ht) as (Hph & new' & Hlog' & Hnew').
  destruct (resume (t_url t) (t_phase t) st.2) as [ph log]. simpl in *.
  subst log. repeat split.
  - transitivity (map t_url st.1); [exact Hu | exact Hurls].
  - apply Forall_insert; [| done].
    eapply Forall_impl; [exact Hitems |]. intros t' Ht'. simpl in Ht'.
    eapply item_inv_mono; [| exact Ht'].
    intros e He. apply elem_of_app. by right.
  - exists (new' ++ new). rewrite Hlog. split; [by rewrite app_assoc |].
    by apply Forall_app.
Qed.

Lemma run_inv urls log0 sched st :
  state_inv urls log0 st -> state_inv urls log0 (run sched st).
Proof.
  unfold PermaCache.run. revert st.
  induction sched as [| i sched IH]; intros st Hst; [done |].
  simpl. apply IH. by apply resume_at_inv.
Qed.

Lemma start_inv urls log :
  state_inv urls log (map (PermaCache.start ep) urls, log).
Proof.
  repeat split; simpl.
  - rewrite map_map. simpl. apply map_id.
  - apply Forall_map. apply Forall_forall. intros url _. simpl. constructor.
  - by exists [].
Qed.

Lemma resume_at_rank st i j t :
  st.1 !! j = Some t ->
  exists t', (resume_at st i).1 !! j = Some t'
    /\ Nat.min 3 (rank (t_phase t) + (if Nat.eqb j i then 1 else 0))
       <= rank (t_phase t').
Proof.
  intros Hj. unfold PermaCache.resume_at.
  destruct (Nat.eqb_spec j i) as [-> | Hne].
  - rewrite Hj.
    pose proof (resume_rank (t_url t) (t_phase t) st.2) as Hr.
    destruct (resume (t_url t) (t_phase t) st.2) as [ph log].
    cbn [fst snd] in *.
    eexists. split.
    + apply list_lookup_insert_eq. by eapply lookup_lt_Some.
    + cbn [t_phase]. lia.
  - exists t. split; [| cbv iota; lia].
    destruct (st.1 !! i) as [t0 |]; [| done].
    destruct (resume (t_url t0) (t_phase t0) st.2) as [ph log]. simpl.
    rewrite list_lookup_insert_ne; [done | congruence].
Qed.

(** Every resumption of an unsettled item brings it one suspension
    further. *)
Lemma run_rank sched st j t :
  st.1 !! j = Some t ->
  exists t', (run sched st).1 !! j = Some t'
    /\ Nat.min 3 (rank (t_phase t) + occurrences j sched) <= rank (t_phase t').
Proof.
  unfold PermaCache.run. revert st t.
  induction sched as [| i sched IH]; intros st t Hj;
    cbn [fold_left occurrences].
  - exists t. split; [done | lia].
  - destruct (resume_at_rank st i j t Hj) as (t1 & Hj1 & Hr1).
    destruct (IH _ _ Hj1) as (t' & Hj' & Hr').
    exists t'. split; [done |].
    destruct (Nat.eqb j i); lia.
Qed.

Lemma complete_occurrences n sched j :
  complete n sched = true -> j < n -> 3 <= occurrences j sched.
Proof.
  unfold complete. rewrite forallb_forall. intros H Hj.
  apply Nat.leb_le, H, in_seq. lia.
Qed.

(** Under a complete schedule every mapped function has settled. *)
Lemma complete_settles sched tasks log :
  complete (length tasks) sched = true ->
  Forall (is_Some ∘ settled) (run sched (tasks, log)).1.
Proof.
  intros Hc. apply Forall_lookup. intros j t' Hj'.
  assert (j < length tasks) as Hlt.
  { apply lookup_lt_Some in Hj'. by rewrite run_length in Hj'. }
  destruct (lookup_lt_is_Some_2 tasks j Hlt) as [t Hj].
  destruct (run_rank sched (tasks, log) j t Hj) as (t2 & Hj2 & Hr).
  rewrite Hj' in Hj2. simplify_eq.
  pose proof (complete_occurrences _ _ _ Hc Hlt).
  unfold compose, settled.
  destruct (t_phase t2); cbn [rank] in Hr; try lia. by eexists.
Qed.

(** [pSettle] of settled promises resolves with their results, in order. *)
Lemma pSettle_settled tasks :
  Forall (is_Some ∘ settled) tasks ->
  exists outs, pSettle tasks = ResolvedP outs
    /\ Forall2 (fun t r => t_phase t = Settled r) tasks outs.
Proof.
  intros H. apply mapM_is_Some_2 in H. destruct H as [outs Houts].
  exists outs. unfold pSettle. rewrite Houts. split; [done |].
  apply mapM_Some in Houts. eapply Forall2_impl; [exact Houts |].
  intros t r. unfold settled. destruct (t_phase t); naive_solver.
Qed.


Lemma pSettle_resolved tasks outs :
  pSettle tasks = ResolvedP outs ->
  Forall2 (fun t r => t_phase t = Settled r) tasks outs.
Proof.
  unfold pSettle. destruct (mapM settled tasks) as [outs' |] eqn:H; [| done].
  intros [= <-]. apply mapM_Some in H. eapply Forall2_impl; [exact H |].
  intros t r. unfold settled. destruct (t_phase t); naive_solver.
Qed.

(** A batch that has resolved: one explained result per URL, in order. *)
Lemma batch_resolved urls log0 st outs :
  state_inv urls log0 st ->
  pSettle st.1 = ResolvedP outs ->
  Forall2 (fun url r => explains url st.2 r) urls outs.
Proof.
  intros (Hurls & Hitems & _) Hres. apply pSettle_resolved in Hres.
  rewrite <- Hurls. apply Forall2_fmap_l.
  apply Forall2_same_length_lookup. split; [by eapply Forall2_length |].
  intros i t r Ht Hr. simpl.
  pose proof (Forall2_lookup_lr _ _ _ _ _ _ Hres Ht Hr) as Hph.
  eapply (proj1 (Forall_lookup _ _)) in Hitems; [| exact Ht].
  simpl in Hitems. rewrite Hph in Hitems. by inversion Hitems.
Qed.
End PutFacts.

(** The batch under a complete schedule, for a token that is there. *)
Lemma put_complete fetch service urls options sched log hs :
  PermaCache.headers (token service) = Normal hs ->
  complete (length urls) sched = true ->
  exists outs new,
    PermaCache.put fetch service urls options sched log = (ResolvedP outs, new ++ log)
    /\ Forall2 (fun url r =>
                  explains fetch (endpoint service) (limiter_of service) hs
                           (callback_of options) url (new ++ log) r) urls outs
    /\ Forall (batch_event (endpoint service) (limiter_of service) hs urls) new.
Proof.
  intros Hhs Hc. unfold PermaCache.put. rewrite Hhs.
  set (st0 := (map (PermaCache.start (endpoint service)) urls, log)).
  set (st := PermaCache.run _ _ _ _ sched st0).
  assert (state_inv fetch (endpoint service) (limiter_of service) hs
            (callback_of options) urls log st) as Hinv.
  { apply run_inv, start_inv. }
  destruct (pSettle_settled st.1) as (outs & Hres & _).
  { apply complete_settles. by rewrite length_map. }
  pose proof (batch_resolved _ _ _ _ _ _ _ _ _ Hinv Hres) as Hexp.
  destruct Hinv as (_ & _ & new & Hlog & Hnew).
  exists outs, new. rewrite Hres, <- Hlog. done.
Qed.

Lemma headers_present tok :
  token_missing tok = false ->
  exists t, tok = Some t
    /\ PermaCache.headers tok
       = Normal [("Authorization", "Bearer " +:+ t); ("X-Client", "nftstorage.link/js")].
Proof.
  destruct tok as [t |]; simpl; [| done].
  intros Ht. exists t. by rewrite Ht.
Qed.

Lemma headers_missing tok :
  token_missing tok = true ->
  PermaCache.headers tok = Throw (Error_ (JStr "missing token")).
Proof. destruct tok as [t |]; simpl; [| done]. by intros ->. Qed.

(** Whatever the schedule, the batch only adds its own events to the log. *)
Lemma put_events fetch service urls options sched log hs :
  PermaCache.headers (token service) = Normal hs ->
  exists new,
    (PermaCache.put fetch service urls options sched log).2 = new ++ log
    /\ Forall (batch_event (endpoint service) (limiter_of service) hs urls) new.
Proof.
  intros Hhs. unfold PermaCache.put. rewrite Hhs. simpl.
  pose proof (run_inv fetch (endpoint service) (limiter_of service) hs
                (callback_of options) urls log sched _
                (start_inv _ _ _ _ _ urls log)) as (_ & _ & Hnew).
  exact Hnew.
Qed.



(** Without a callback the body of the mapped function cannot return. *)
Lemma resume_json_no_callback fetch rl hs url response h r :
  (PermaCache.resume fetch rl hs None url (AwaitJson response) h).1 = Settled r ->
  isRejected r = true.
Proof.
  simpl. destruct (resp_json response) as [res | e]; [| by intros [= <-]].
  destruct (negb (resp_ok response)); [| by intros [= <-]].
  destruct (get_prop res "message"); by intros [= <-].
Qed.

Lemma explains_no_callback fetch ep rl hs url log r :
  explains fetch ep rl hs None url log r -> isRejected r = true.
Proof.
  intros H. inversion H; subst; try done.
  by eapply resume_json_no_callback.
Qed.

(** ** The batch settles every item *)



(** ** One outcome per URL, in the order of the URLs *)



(** ** A batch without a callback *)

(** C10. When [onCachedUrl] is left out (no options, or options without it),
    every item of a batch settles as rejected, whatever the server answers,
    a success status included; so a fulfilled entry in the result of [put]
    implies that a callback was supplied. *)
Theorem put_without_callback_rejects_all fetch service urls options sched log :
  token_missing (token service) = false ->
  complete (length urls) sched = true ->
  exists outs log',
    PermaCache.put fetch service urls options sched log = (ResolvedP outs, log')
    /\ length outs = length urls
    /\ (callback_of options = None -> Forall (fun r => isRejected r = true) outs)
    /\ (forall v, Fulfilled v ∈ outs -> is_Some (callback_of options)).
Proof.
  intros Htok Hc. destruct (headers_present _ Htok) as (t & _ & Hhs).
  destruct (put_complete fetch service urls options sched log _ Hhs Hc)
    as (outs & new & Hput & Hexp & _).
  exists outs, (new ++ log).
  assert (callback_of options = None -> Forall (fun r => isRejected r = true) outs)
    as Hall.
  { intros Hcb. rewrite Hcb in Hexp.
    eapply Forall2_Forall_r; [exact Hexp |].
    apply Forall_forall. intros url _ r. apply explains_no_callback. }
  repeat split; [done | symmetry; by eapply Forall2_length | done |].
  intros v Hv. destruct (callback_of options) as [callback |] eqn:Hcb; [by eexists |].
  specialize (Hall eq_refl).
  apply (proj1 (Forall_forall _ _)) with (x := Fulfilled v) in Hall; done.
Qed.

Lemma put_without_callback_rejects_all_witness :
  token_missing (token Scenario.service) = false
  /\ complete (length Scenario.urls) (one_by_one 2) = true
  /\ exists outs log',
      PermaCache.put Scenario.healthy Scenario.service Scenario.urls None
        (one_by_one 2) [] = (ResolvedP outs, log')
      /\ Forall (fun r => isRejected r = true) outs.
Proof.
  split; [reflexivity |]. split; [reflexivity |].
  destruct (put_without_callback_rejects_all Scenario.healthy Scenario.service
              Scenario.urls None (one_by_one 2) [] eq_refl eq_refl)
    as (outs & log' & Hput & _ & Hall & _).
  exists outs, log'. split; [exact Hput | exact (Hall eq_refl)].
Defined.

(** ** [list] *)

(** C6. When the limiter lets the call pass and the one GET request of
    [PermaCache.list] is answered with a JSON object: if its [ok] is
    [false], [list] rejects, the request it made stays the only one, and
    when the body carries [error.message] the rejection is an [Error] made
    from that message; if its [ok] is [true], [list] resolves with the
    body. *)
Theorem list_envelope fetch service options log hs response fields :
  PermaCache.headers (token service) = Normal hs ->
  await_limiter (limiter_of service) log = Normal tt ->
  let request :=
    {| req_method := GET;
       req_url := URL_toString (new_URL "perma-cache/" (endpoint service));
       req_headers := hs |} in
  let log' := EvFetch request :: EvGrant (lim_id (limiter_of service)) :: log in
  fetch log' request = Normal response ->
  resp_json response = Normal (JObj fields) ->
  (assoc "ok" fields = Some (JBool false) ->
     (exists e, PermaCache.list_ fetch service options log = (RejectedP e, log'))
     /\ forall efields message,
         assoc "error" fields = Some (JObj efields) ->
         assoc "message" efields = Some message ->
         PermaCache.list_ fetch service options log
         = (RejectedP (Error_ message), log'))
  /\ (assoc "ok" fields = Some (JBool true) ->
      PermaCache.list_ fetch service options log = (ResolvedP (JObj fields), log')).
Proof.
  intros Hhs Hlim request log' Hresp Hjson.
  unfold PermaCache.list_. fold (limiter_of service).
  rewrite Hhs, Hlim. fold request. fold log'. rewrite Hresp, Hjson.
  split.
  - intros Hok. simpl. rewrite Hok. simpl. split.
    + destruct (assoc "error" fields) as [err |]; simpl; [| by eexists].
      destruct (get_prop err "message"); by eexists.
    + intros efields message -> Hm. simpl. by rewrite Hm.
  - intros Hok. simpl. by rewrite Hok.
Qed.

Lemma list_envelope_witness :
  PermaCache.list_ Scenario.refusing Scenario.service None []
  = (RejectedP (Error_ (JStr "bad token")),
     [EvFetch {| req_method := GET;
                 req_url := "https://api.nftstorage.link/perma-cache/";
                 req_headers := [("Authorization", "Bearer secret");
                                 ("X-Client", "nftstorage.link/js")] |};
      EvGrant 0]).
Proof.
  exact (proj2 (proj1 (list_envelope Scenario.refusing Scenario.service None []
                         _ _ _ eq_refl eq_refl eq_refl eq_refl) eq_refl)
               _ _ eq_refl eq_refl).
Defined.

(** ** A missing token *)

(** C5, the claim as stated fails: a client is constructed with the token
    [""] and with no token at all; the constructor does not throw. *)
Lemma constructor_accepts_missing_token :
  PermaCache.constructor
    (Some {| co_token := Some ""; co_endpoint := None; co_rateLimiter := None |})
    heap_after_load
  = Normal ({| endpoint := default_endpoint; token := Some "";
               rateLimiter := Some (Throttle 1 100%Z 60000%Z) |}, 2)
  /\ PermaCache.constructor
       (Some {| co_token := None; co_endpoint := None; co_rateLimiter := None |})
       heap_after_load
     = Normal ({| endpoint := default_endpoint; token := None;
                  rateLimiter := Some (Throttle 1 100%Z 60000%Z) |}, 2)
  /\ ~ (forall tok,
          token_missing tok = true ->
          exists e,
            PermaCache.constructor
              (Some {| co_token := tok; co_endpoint := None; co_rateLimiter := None |})
              heap_after_load = Throw e).
Proof.
  split; [reflexivity |]. split; [reflexivity |].
  intros H. destruct (H (Some "") eq_refl) as [e He]. discriminate He.
Qed.

(** C5, amended. A missing or empty token makes [headers] throw
    [Error('missing token')]; [put] and [list] then reject with that error
    before any limiter call and any request, under every schedule, without
    a retry: the log is left as it was.  The constructor does not look at
    the token: it returns a client that holds the missing token. *)
Theorem missing_token_fails_at_call fetch service o heap :
  token_missing (token service) = true ->
  token_missing (co_token o) = true ->
  PermaCache.headers (token service) = Throw (Error_ (JStr "missing token"))
  /\ (forall urls options sched log,
         PermaCache.put fetch service urls options sched log
         = (RejectedP (Error_ (JStr "missing token")), log))
  /\ (forall options log,
         PermaCache.list_ fetch service options log
         = (RejectedP (Error_ (JStr "missing token")), log))
  /\ exists client heap',
      PermaCache.constructor (Some o) heap = Normal (client, heap')
      /\ token client = co_token o.
Proof.
  intros Hs Ho. pose proof (headers_missing _ Hs) as Hhs.
  repeat split.
  - exact Hhs.
  - intros. unfold PermaCache.put. by rewrite Hhs.
  - intros. unfold PermaCache.list_. by rewrite Hhs.
  - unfold PermaCache.constructor.
    destruct (co_rateLimiter o); simpl; by eexists _, _.
Qed.

Lemma missing_token_fails_at_call_witness :
  PermaCache.put Scenario.healthy
    {| endpoint := default_endpoint; token := Some ""; rateLimiter := None |}
    Scenario.urls None (one_by_one 2) []
  = (RejectedP (Error_ (JStr "missing token")), []).
Proof.
  exact (proj1 (proj2 (missing_token_fails_at_call Scenario.healthy
                         {| endpoint := default_endpoint; token := Some "";
                            rateLimiter := None |}
                         {| co_token := None; co_endpoint := None;
                            co_rateLimiter := None |}
                         heap_after_load eq_refl eq_refl))
               Scenario.urls None (one_by_one 2) []).
Defined.

(** ** Default rate limiters *)

(** C8, the claim as stated fails: two clients constructed without a
    [rateLimiter] hold two different limiters, and neither is the limiter of
    the static operations. *)
Lemma constructed_limiter_not_shared :
  exists c1 h1 c2 h2,
    PermaCache.constructor (Some Scenario.no_limiter) heap_after_load = Normal (c1, h1)
    /\ PermaCache.constructor (Some Scenario.no_limiter) h1 = Normal (c2, h2)
    /\ limiter_of c1 <> limiter_of c2
    /\ limiter_of c1 <> globalRateLimiter
    /\ limiter_of c2 <> globalRateLimiter.
Proof.
  do 4 eexists. split; [reflexivity |]. split; [reflexivity |].
  repeat split; discriminate.
Qed.

(** C8, amended. A static operation on a service without a [rateLimiter]
    waits on the one limiter of the module, made for 100 requests per
    60000 ms: every grant that [put] and [list] log is a grant of that
    limiter.  A client constructed without a [rateLimiter] gets a limiter
    of its own, new at each construction, made for the same 100 requests per
    60000 ms. *)
Theorem default_rate_limiters fetch service urls options sched loptions log o heap :
  rateLimiter service = None ->
  co_rateLimiter o = None ->
  heap_after_load <= heap ->
  globalRateLimiter = Throttle 0 100%Z 60000%Z
  /\ limiter_of service = globalRateLimiter
  /\ (forall id,
         EvGrant id ∈ (PermaCache.put fetch service urls options sched log).2 ->
         EvGrant id ∈ log \/ id = lim_id globalRateLimiter)
  /\ (forall id,
         EvGrant id ∈ (PermaCache.list_ fetch service loptions log).2 ->
         EvGrant id ∈ log \/ id = lim_id globalRateLimiter)
  /\ exists client,
      PermaCache.constructor (Some o) heap = Normal (client, S heap)
      /\ rateLimiter client = Some (Throttle heap 100%Z 60000%Z)
      /\ limiter_of client <> globalRateLimiter.
Proof.
  intros Hrl Ho Hheap.
  assert (limiter_of service = globalRateLimiter) as Hlim.
  { unfold limiter_of. by rewrite Hrl. }
  split; [reflexivity |]. split; [exact Hlim |]. split; [| split].
  - intros id Hid.
    destruct (PermaCache.headers (token service)) as [hs | e] eqn:Hhs.
    + destruct (put_events fetch service urls options sched log hs Hhs)
        as (new & Hlog & Hnew).
      rewrite Hlog in Hid. apply elem_of_app in Hid as [Hid | Hid]; [| by left].
      right. apply (proj1 (Forall_forall _ _)) with (x := EvGrant id) in Hnew; [| done].
      inversion Hnew. by rewrite Hlim.
    + left. unfold PermaCache.put in Hid. by rewrite Hhs in Hid.
  - intros id. unfold PermaCache.list_. fold (limiter_of service). rewrite Hlim.
    destruct (PermaCache.headers (token service)) as [hs | e]; simpl; [| by left].
    repeat case_match; simpl; intros Hid;
      apply elem_of_cons in Hid as [Hid | Hid]; try discriminate;
      apply elem_of_cons in Hid as [[= ->] | Hid]; auto.
  - unfold PermaCache.constructor. rewrite Ho. simpl. eexists.
    split; [reflexivity |]. split; [reflexivity |].
    unfold limiter_of, globalRateLimiter. simpl.
    unfold heap_after_load in Hheap. simpl in Hheap.
    intros [= ->]. lia.
Qed.

Lemma default_rate_limiters_witness :
  exists client,
    PermaCache.constructor (Some Scenario.no_limiter) 7 = Normal (client, 8)
    /\ rateLimiter client = Some (Throttle 7 100%Z 60000%Z)
    /\ limiter_of client <> globalRateLimiter.
Proof.
  exact (proj2 (proj2 (proj2 (proj2
           (default_rate_limiters Scenario.healthy Scenario.service Scenario.urls
              None (one_by_one 2) None [] Scenario.no_limiter 7
              eq_refl eq_refl ltac:(vm_compute; lia)))))).
Defined.

(** ** Retries *)

(** C3, the code at the failing input.  The second URL's request is
    answered with status 500 twice and with 200 from the third time on, and
    [maxRetries] is 5: the item is rejected after its only request, and the
    value of [maxRetries] makes no difference to what [put] does. *)
Theorem put_makes_one_attempt :
  PermaCache.put (Scenario.flaky "https://a/2") Scenario.service Scenario.urls
    (Some {| onCachedUrl := Some Scenario.progress; maxRetries := Some 5%Z |})
    (one_by_one 2) []
  = (ResolvedP
       [Fulfilled (JObj [("url", JStr (Scenario.api "https://a/1")); ("size", JNum 42)]);
        Rejected (Error_ (JStr "Internal Server Error"))],
     [EvFetch (request_for default_endpoint
                 [("Authorization", "Bearer secret"); ("X-Client", "nftstorage.link/js")]
                 "https://a/2");
      EvGrant 0;
      EvCallback "https://a/1";
      EvFetch (request_for default_endpoint
                 [("Authorization", "Bearer secret"); ("X-Client", "nftstorage.link/js")]
                 "https://a/1");
      EvGrant 0])
  /\ count_fetch (Scenario.api "https://a/2")
       (PermaCache.put (Scenario.flaky "https://a/2") Scenario.service Scenario.urls
          (Some {| onCachedUrl := Some Scenario.progress; maxRetries := Some 5%Z |})
          (one_by_one 2) []).2 = 1
  /\ forall fetch service urls callback sched log m m',
      PermaCache.put fetch service urls
        (Some {| onCachedUrl := callback; maxRetries := m |}) sched log
      = PermaCache.put fetch service urls
          (Some {| onCachedUrl := callback; maxRetries := m' |}) sched log.
Proof. split; [reflexivity |]. split; reflexivity. Qed.

(** ** The callback *)

(** C4, the code at the failing input.  [put] is called without options and
    the request succeeds with status 200: the item is rejected with a
    [TypeError], where the same call with a callback is fulfilled with the
    body.  With a callback, it is called once for the URL whose request
    succeeds and not at all for the URL whose request fails. *)
Theorem put_needs_callback :
  (PermaCache.put Scenario.healthy Scenario.service ["https://a/1"] None
     (one_by_one 1) []).1
  = ResolvedP [Rejected (TypeError_ "onCachedUrl is not a function")]
  /\ (PermaCache.put Scenario.healthy Scenario.service ["https://a/1"]
        (Some {| onCachedUrl := Some Scenario.progress; maxRetries := None |})
        (one_by_one 1) []).1
     = ResolvedP [Fulfilled (JObj [("url", JStr (Scenario.api "https://a/1"));
                                   ("size", JNum 42)])]
  /\ count_callback "https://a/1"
       (PermaCache.put (Scenario.flaky "https://a/2") Scenario.service Scenario.urls
          (Some {| onCachedUrl := Some Scenario.progress; maxRetries := None |})
          (interleaved 2) []).2 = 1
  /\ count_callback "https://a/2"
       (PermaCache.put (Scenario.flaky "https://a/2") Scenario.service Scenario.urls
          (Some {| onCachedUrl := Some Scenario.progress; maxRetries := None |})
          (interleaved 2) []).2 = 0.
Proof. repeat split; reflexivity. Qed.

(** ** The order of completion *)

Section Stateless.
Variable fetch : Fetch.
Variable ep : URL.
Variable rl : RateLimiter.
Variable hs : list (string * string).
Variable cb : option Callback.

Hypothesis fetch_stateless :
  forall h h' request, fetch h request = fetch h' request.
Hypothesis limiter_stateless :
  forall h h', await_limiter rl h = await_limiter rl h'.
Hypothesis callback_stateless :
  forall callback h h' url, cb = Some callback -> callback h url = callback h' url.

Lemma resume_json_stateless url response h h' :
  (PermaCache.resume fetch rl hs cb url (AwaitJson response) h).1
  = (PermaCache.resume fetch rl hs cb url (AwaitJson response) h').1.
Proof.
  simpl. destruct (resp_json response) as [res | e]; [| done].
  destruct (negb (resp_ok response)).
  - by destruct (get_prop res "message").
  - destruct cb as [callback |] eqn:Hcb; [| done].
    rewrite (callback_stateless callback h h' url eq_refl).
    by destruct (callback h' url).
Qed.

(** When the surroundings do not look at the log, an item has one possible
    result. *)
Lemma explains_deterministic url log1 log2 r1 r2 :
  explains fetch ep rl hs cb url log1 r1 ->
  explains fetch ep rl hs cb url log2 r2 ->
  r1 = r2.
Proof.
  intros H1 H2.
  destruct H1 as [h1 e1 Hl1 | h1 e1 [_ [g1 Hg1]] Hf1
                 | h1 h1' resp1 r1 [_ [g1 Hg1]] Hf1 Hr1];
    destruct H2 as [h2 e2 Hl2 | h2 e2 [_ [g2 Hg2]] Hf2
                   | h2 h2' resp2 r2 [_ [g2 Hg2]] Hf2 Hr2].
  - rewrite (limiter_stateless h1 h2) in Hl1. congruence.
  - rewrite (limiter_stateless h1 g2) in Hl1. congruence.
  - rewrite (limiter_stateless h1 g2) in Hl1. congruence.
  - rewrite (limiter_stateless h2 g1) in Hl2. congruence.
  - rewrite (fetch_stateless h1 h2) in Hf1. congruence.
  - rewrite (fetch_stateless h1 h2) in Hf1. congruence.
  - rewrite (limiter_stateless h2 g1) in Hl2. congruence.
  - rewrite (fetch_stateless h1 h2) in Hf1. congruence.
  - rewrite (fetch_stateless h1 h2) in Hf1.
    assert (resp1 = resp2) as -> by congruence.
    rewrite (resume_json_stateless url resp2 h1' h2') in Hr1. congruence.
Qed.

Lemma explained_results_equal urls log1 log2 outs1 outs2 :
  Forall2 (fun url r => explains fetch ep rl hs cb url log1 r) urls outs1 ->
  Forall2 (fun url r => explains fetch ep rl hs cb url log2 r) urls outs2 ->
  outs1 = outs2.
Proof.
  intros H1. revert outs2.
  induction H1 as [| url r1 urls outs1 Hr1 _ IH]; intros outs2 H2.
  - by inversion H2.
  - inversion H2 as [| ? r2 ? outs2' Hr2 H2']; subst.
    f_equal; [by eapply explains_deterministic | by apply IH].
Qed.
End Stateless.

(** X19. When the network, the limiter and the callback do not look at the
    log, the array [put] resolves with is the same under all complete
    schedules: the order in which the items complete does not show in it. *)
Lemma put_order_independent fetch service urls options sched1 sched2 log1 log2 hs :
  PermaCache.headers (token service) = Normal hs ->
  (forall h h' request, fetch h request = fetch h' request) ->
  (forall h h', await_limiter (limiter_of service) h
                = await_limiter (limiter_of service) h') ->
  (forall callback h h' url,
      callback_of options = Some callback -> callback h url = callback h' url) ->
  complete (length urls) sched1 = true ->
  complete (length urls) sched2 = true ->
  (PermaCache.put fetch service urls options sched1 log1).1
  = (PermaCache.put fetch service urls options sched2 log2).1.
Proof.
  intros Hhs Hf Hl Hcb Hc1 Hc2.
  destruct (put_complete fetch service urls options sched1 log1 _ Hhs Hc1)
    as (outs1 & new1 & -> & Hexp1 & _).
  destruct (put_complete fetch service urls options sched2 log2 _ Hhs Hc2)
    as (outs2 & new2 & -> & Hexp2 & _).
  simpl. f_equal. eapply explained_results_equal; eauto.
Qed.

(** * Further properties of the client *)

(** ** Strings *)

Lemma append_cons c (s t : string) : String c s +:+ t = String c (s +:+ t).
Proof. reflexivity. Qed.

Lemma append_nil_r (s : string) : s +:+ "" = s.
Proof. induction s as [| c s IH]; [done |]. by rewrite append_cons, IH. Qed.

Lemma append_assoc (s1 s2 s3 : string) : (s1 +:+ s2) +:+ s3 = s1 +:+ (s2 +:+ s3).
Proof. induction s1 as [| c s1 IH]; [done |]. by rewrite !append_cons, IH. Qed.

Lemma append_inv_head (s t1 t2 : string) : s +:+ t1 = s +:+ t2 -> t1 = t2.
Proof.
  induction s as [| c s IH]; [done |].
  rewrite !append_cons. intros [= H]. by apply IH.
Qed.

Lemma concat_segments_app (f : string -> string) (l1 l2 : list string) :
  String.concat "" (map f (l1 ++ l2))
  = String.concat "" (map f l1) +:+ String.concat "" (map f l2).
Proof.
  induction l1 as [| x l1 IH]; [done |].
  change (String.concat "" (map f ((x :: l1) ++ l2)))
    with (String.concat "" (f x :: map f (l1 ++ l2))).
  change (String.concat "" (map f (x :: l1)))
    with (String.concat "" (f x :: map f l1)).
  assert (forall y ys, String.concat "" (y :: ys) = y +:+ String.concat "" ys) as Hc.
  { intros y [| z ys]; [symmetry; apply append_nil_r | reflexivity]. }
  by rewrite !Hc, IH, append_assoc.
Qed.

Lemma string_forallb_app p s1 s2 :
  string_forallb p (s1 +:+ s2) = string_forallb p s1 && string_forallb p s2.
Proof.
  induction s1 as [| c s1 IH]; simpl; [done |].
  by rewrite IH, andb_assoc.
Qed.

Lemma encode_byte_alphabet c :
  string_forallb (fun d => uri_unreserved d || Ascii.eqb d "%")
    (if uri_unreserved c then String c "" else percent_byte c) = true.
Proof. destruct c as [[] [] [] [] [] [] [] []]; reflexivity. Qed.

Lemma decode_encoded_byte c rest :
  percent_decode ((if uri_unreserved c then String c "" else percent_byte c) +:+ rest)
  = String c (percent_decode rest).
Proof. destruct c as [[] [] [] [] [] [] [] []]; reflexivity. Qed.

Lemma decode_encode s : percent_decode (encodeURIComponent s) = s.
Proof.
  induction s as [| c s IH]; [done |].
  cbn [encodeURIComponent]. by rewrite decode_encoded_byte, IH.
Qed.

Lemma encode_not_dot url :
  dot_segment url = false ->
  encodeURIComponent url <> "." /\ encodeURIComponent url <> "..".
Proof.
  unfold dot_segment. intros H. apply orb_false_iff in H as [H1 H2].
  apply String.eqb_neq in H1, H2.
  split; intros He; apply (f_equal percent_decode) in He;
    rewrite decode_encode in He; simpl in He; congruence.
Qed.

Lemma apiUrl_string ep url :
  dot_segment url = false ->
  URL_toString (PermaCache.apiUrl ep url)
  = directory ep +:+ "/perma-cache/" +:+ encodeURIComponent url.
Proof.
  intros Hdot. destruct (encode_not_dot url Hdot) as [H1 H2].
  unfold URL_toString, directory.
  rewrite (apiUrl_path ep url H1 H2).
  cbn [url_authority url_path PermaCache.apiUrl new_URL].
  rewrite concat_segments_app. unfold URL_toString. cbn [url_authority url_path].
  rewrite append_assoc. reflexivity.
Qed.

(** ** The encoding of a URL *)

(** X1. The encoding of any string is made of unreserved characters and
    percent signs only; no slash, question mark, hash or colon is left in
    it. *)
Theorem encodeURIComponent_alphabet s :
  string_forallb (fun c => uri_unreserved c || Ascii.eqb c "%")
    (encodeURIComponent s) = true.
Proof.
  induction s as [| c s IH]; [done |].
  cbn [encodeURIComponent].
  by rewrite string_forallb_app, encode_byte_alphabet, IH.
Qed.

(** X2. Two URLs with the same encoding are the same URL: percent-decoding
    gives each of them back. *)
Theorem encodeURIComponent_injective s1 s2 :
  encodeURIComponent s1 = encodeURIComponent s2 ->
  s1 = s2 /\ percent_decode (encodeURIComponent s1) = s1.
Proof.
  intros H. split; [| apply decode_encode].
  apply (f_equal percent_decode) in H.
  by rewrite !decode_encode in H.
Qed.

Lemma encodeURIComponent_injective_witness :
  percent_decode "a%2Fb%3Fc%20%C3%A9" = "a/b?c é".
Proof.
  exact (proj2 (encodeURIComponent_injective "a/b?c é" "a/b?c é" eq_refl)).
Defined.

(** X3. For a URL other than [.] and [..], the request goes to the
    directory of the endpoint, then [/perma-cache/], then the encoded URL,
    which is one path segment. *)
Theorem apiUrl_closed_form ep url :
  dot_segment url = false ->
  URL_toString (PermaCache.apiUrl ep url)
  = directory ep +:+ "/perma-cache/" +:+ encodeURIComponent url
  /\ mem_ascii "/" (encodeURIComponent url) = false.
Proof.
  intros Hdot. split; [by apply apiUrl_string | apply encodeURIComponent_no_slash].
Qed.

Lemma apiUrl_closed_form_witness :
  URL_toString (PermaCache.apiUrl
                  {| url_authority := "https://h"; url_path := ["v1"; "api"] |}
                  "ipfs://bafy/a b")
  = "https://h/v1/perma-cache/ipfs%3A%2F%2Fbafy%2Fa%20b".
Proof.
  exact (proj1 (apiUrl_closed_form
                  {| url_authority := "https://h"; url_path := ["v1"; "api"] |}
                  "ipfs://bafy/a b" eq_refl)).
Defined.

(** X4. Against one endpoint, two URLs other than [.] and [..] that get the
    same request URL are the same URL. *)
Theorem apiUrl_injective ep url1 url2 :
  dot_segment url1 = false ->
  dot_segment url2 = false ->
  URL_toString (PermaCache.apiUrl ep url1) = URL_toString (PermaCache.apiUrl ep url2) ->
  url1 = url2.
Proof.
  intros H1 H2 Heq. rewrite !apiUrl_string in Heq by done.
  apply append_inv_head in Heq.
  apply (append_inv_head "/perma-cache/") in Heq.
  apply (f_equal percent_decode) in Heq. by rewrite !decode_encode in Heq.
Qed.

Lemma apiUrl_injective_witness :
  dot_segment "https://a/1" = false /\ "https://a/1" = "https://a/1".
Proof.
  split; [reflexivity |].
  exact (apiUrl_injective default_endpoint "https://a/1" "https://a/1"
           eq_refl eq_refl eq_refl).
Defined.

(** X5. The two dot segments and the empty URL leave [perma-cache]'s
    entries: the empty URL and [.] are posted to the URL that [list] reads,
    and [..] is posted to the directory of the endpoint. *)
Theorem apiUrl_dot_segments ep :
  URL_toString (PermaCache.apiUrl ep "")
  = URL_toString (new_URL "perma-cache/" ep)
  /\ URL_toString (PermaCache.apiUrl ep ".")
     = URL_toString (new_URL "perma-cache/" ep)
  /\ URL_toString (PermaCache.apiUrl ep "..") = directory ep +:+ "/".
Proof.
  split; [reflexivity |]. split; [reflexivity |].
  assert (url_path (PermaCache.apiUrl ep "..")
          = removelast (removelast (url_path ep) ++ ["perma-cache"]) ++ [""])
    as Hpath by reflexivity.
  unfold directory, URL_toString. rewrite Hpath.
  change (url_authority (PermaCache.apiUrl ep "..")) with (url_authority ep).
  cbn [url_authority url_path].
  rewrite removelast_last, concat_segments_app, append_assoc. reflexivity.
Qed.

(** ** The request of an item *)



(** ** Counting over a running batch *)

Lemma tally_cons p t tasks :
  tally p (t :: tasks) = Nat.b2n (p (t_phase t)) + tally p tasks.
Proof. unfold tally. simpl. by destruct (p (t_phase t)). Qed.

Lemma tally_insert p tasks i t ph :
  tasks !! i = Some t ->
  tally p (<[i := {| t_url := t_url t; t_phase := ph |}]> tasks)
    + Nat.b2n (p (t_phase t))
  = tally p tasks + Nat.b2n (p ph).
Proof.
  revert i. induction tasks as [| t0 tasks IH]; intros i Hi; [done |].
  destruct i as [| i]; simpl in Hi.
  - injection Hi as ->. simpl. rewrite !tally_cons. simpl. lia.
  - simpl. rewrite !tally_cons. specialize (IH i Hi). lia.
Qed.


Lemma tally_all p tasks :
  Forall (fun t => p (t_phase t) = true) tasks -> tally p tasks = length tasks.
Proof.
  induction 1 as [| t tasks Ht _ IH]; [done |].
  rewrite tally_cons, Ht, IH. done.
Qed.

Lemma tally_start p ep urls :
  (forall a, p (AwaitLimiter a) = false) ->
  tally p (map (PermaCache.start ep) urls) = 0.
Proof.
  intros Hp. induction urls as [| url urls IH]; [done |].
  simpl. rewrite tally_cons, IH. simpl. by rewrite Hp.
Qed.

Lemma tally_fulfilled tasks outs :
  Forall2 (fun t r => t_phase t = Settled r) tasks outs ->
  tally has_fulfilled tasks = length (List.filter isFulfilled outs).
Proof.
  induction 1 as [| t r tasks outs Hr _ IH]; [done |].
  rewrite tally_cons, Hr, IH. simpl. by destruct r.
Qed.

Section Counting.
Variable fetch : Fetch.
Variable rl : RateLimiter.
Variable hs : list (string * string).
Variable cb : option Callback.
Variable m : Log -> nat.
Variable p : Phase -> bool.

Local Abbreviation resume := (PermaCache.resume fetch rl hs cb).
Local Abbreviation resume_at := (PermaCache.resume_at fetch rl hs cb).
Local Abbreviation run := (PermaCache.run fetch rl hs cb).

(** If no resumption adds more to the measure of the log than it adds to
    the tally of the phases, no run does. *)
Lemma run_tally_le :
  (forall url ph log,
      m (resume url ph log).2 + Nat.b2n (p ph)
      <= m log + Nat.b2n (p (resume url ph log).1)) ->
  forall sched st,
    m (run sched st).2 + tally p st.1 <= m st.2 + tally p (run sched st).1.
Proof.
  intros Hstep. unfold PermaCache.run.
  induction sched as [| i sched IH]; intros st; [simpl; lia |].
  cbn [fold_left]. specialize (IH (resume_at st i)).
  enough (m (resume_at st i).2 + tally p st.1
          <= m st.2 + tally p (resume_at st i).1) by lia.
  unfold PermaCache.resume_at. destruct (st.1 !! i) as [t |] eqn:Hi; [| lia].
  pose proof (Hstep (t_url t) (t_phase t) st.2) as H.
  destruct (resume (t_url t) (t_phase t) st.2) as [ph log]. cbn [fst snd] in *.
  pose proof (tally_insert p st.1 i t ph Hi). lia.
Qed.

(** If no resumption adds less to the measure of the log than it adds to
    the tally of the phases, no run does. *)
Lemma run_tally_ge :
  (forall url ph log,
      m log + Nat.b2n (p (resume url ph log).1)
      <= m (resume url ph log).2 + Nat.b2n (p ph)) ->
  forall sched st,
    m st.2 + tally p (run sched st).1 <= m (run sched st).2 + tally p st.1.
Proof.
  intros Hstep. unfold PermaCache.run.
  induction sched as [| i sched IH]; intros st; [simpl; lia |].
  cbn [fold_left]. specialize (IH (resume_at st i)).
  enough (m st.2 + tally p (resume_at st i).1
          <= m (resume_at st i).2 + tally p st.1) by lia.
  unfold PermaCache.resume_at. destruct (st.1 !! i) as [t |] eqn:Hi; [| lia].
  pose proof (Hstep (t_url t) (t_phase t) st.2) as H.
  destruct (resume (t_url t) (t_phase t) st.2) as [ph log]. cbn [fst snd] in *.
  pose proof (tally_insert p st.1 i t ph Hi). lia.
Qed.
End Counting.

Section Steps.
Variable fetch : Fetch.
Variable rl : RateLimiter.
Variable hs : list (string * string).
Variable cb : option Callback.

Local Abbreviation resume := (PermaCache.resume fetch rl hs cb).



Lemma step_callbacks_ge url ph log :
  callbacks log + Nat.b2n (has_fulfilled (resume url ph log).1)
  <= callbacks (resume url ph log).2 + Nat.b2n (has_fulfilled ph).
Proof.
  destruct ph as [a | rq | rs | r]; simpl.
  - destruct (await_limiter rl log); simpl; unfold callbacks; simpl; lia.
  - destruct (fetch log rq); simpl; lia.
  - destruct (resp_json rs) as [res | e]; simpl; [| lia].
    destruct (negb (resp_ok rs)).
    + destruct (get_prop res "message"); simpl; lia.
    + destruct cb as [callback |]; simpl; [| lia].
      destruct (callback log url); simpl; unfold callbacks; simpl; lia.
  - lia.
Qed.

Lemma step_callbacks_fulfilled url ph log :
  (forall callback h u, cb = Some callback -> callback h u = Normal tt) ->
  callbacks (resume url ph log).2 + Nat.b2n (has_fulfilled ph)
  <= callbacks log + Nat.b2n (has_fulfilled (resume url ph log).1).
Proof.
  intros Hcb. destruct ph as [a | rq | rs | r]; simpl.
  - destruct (await_limiter rl log); simpl; unfold callbacks; simpl; lia.
  - destruct (fetch log rq); simpl; lia.
  - destruct (resp_json rs) as [res | e]; simpl; [| lia].
    destruct (negb (resp_ok rs)).
    + destruct (get_prop res "message"); simpl; lia.
    + destruct cb as [callback |]; simpl; [| lia].
      rewrite (Hcb callback log url eq_refl). simpl. unfold callbacks. simpl. lia.
  - lia.
Qed.
End Steps.

(** [put] with a token is [pSettle] over the run of the mapped functions. *)
Lemma put_unfold fetch service urls options sched log hs :
  PermaCache.headers (token service) = Normal hs ->
  PermaCache.put fetch service urls options sched log
  = (pSettle (PermaCache.run fetch (limiter_of service) hs (callback_of options) sched
                (map (PermaCache.start (endpoint service)) urls, log)).1,
     (PermaCache.run fetch (limiter_of service) hs (callback_of options) sched
        (map (PermaCache.start (endpoint service)) urls, log)).2).
Proof. intros Hhs. unfold PermaCache.put. by rewrite Hhs. Qed.

Lemma put_missing fetch service urls options sched log e :
  PermaCache.headers (token service) = Throw e ->
  PermaCache.put fetch service urls options sched log = (RejectedP e, log).
Proof. intros Hhs. unfold PermaCache.put. by rewrite Hhs. Qed.

(** ** The requests of a batch *)


(** ** The calls of the callback *)


(** X9. In the result of a batch there are never more fulfilled entries
    than calls of the callback; when the callback never throws, it was
    called exactly once for each fulfilled entry and not at all for the
    rejected ones. *)
Theorem callback_once_per_fulfilled fetch service urls options sched log outs log' :
  PermaCache.put fetch service urls options sched log = (ResolvedP outs, log') ->
  callbacks log + length (List.filter isFulfilled outs) <= callbacks log'
  /\ ((forall callback h url,
          callback_of options = Some callback -> callback h url = Normal tt) ->
      callbacks log' = callbacks log + length (List.filter isFulfilled outs)).
Proof.
  destruct (PermaCache.headers (token service)) as [hs | e] eqn:Hhs;
    [| by rewrite (put_missing _ _ _ _ _ _ _ Hhs)].
  rewrite (put_unfold _ _ _ _ _ _ _ Hhs).
  set (st0 := (map (PermaCache.start (endpoint service)) urls, log)).
  intros [= Hres <-].
  apply pSettle_resolved, tally_fulfilled in Hres.
  pose proof (run_tally_ge fetch (limiter_of service) hs (callback_of options)
                callbacks has_fulfilled (step_callbacks_ge _ _ _ _) sched st0) as Hge.
  rewrite Hres in Hge. subst st0. cbn [fst snd] in Hge.
  rewrite tally_start in Hge by done.
  split; [lia |]. intros Hcb.
  pose proof (run_tally_le fetch (limiter_of service) hs (callback_of options)
                callbacks has_fulfilled
                (fun url ph l => step_callbacks_fulfilled _ _ _ _ url ph l Hcb)
                sched (map (PermaCache.start (endpoint service)) urls, log)) as Hle.
  rewrite Hres in Hle. cbn [fst snd] in Hle.
  rewrite tally_start in Hle by done. lia.
Qed.

Lemma callback_once_per_fulfilled_witness :
  callbacks (PermaCache.put (Scenario.flaky "https://a/2") Scenario.service
               Scenario.urls
               (Some {| onCachedUrl := Some Scenario.progress; maxRetries := None |})
               (interleaved 2) []).2 = 1.
Proof.
  exact (proj2 (callback_once_per_fulfilled (Scenario.flaky "https://a/2")
                  Scenario.service Scenario.urls
                  (Some {| onCachedUrl := Some Scenario.progress; maxRetries := None |})
                  (interleaved 2) [] _ _ eq_refl)
               (fun _ _ _ H => match H with eq_refl => eq_refl end)).
Defined.

(** ** What a result entry says *)

(** Whatever the schedule, a batch that has resolved has one explained
    result per URL. *)
Lemma put_resolved_explained fetch service urls options sched log hs outs log' :
  PermaCache.headers (token service) = Normal hs ->
  PermaCache.put fetch service urls options sched log = (ResolvedP outs, log') ->
  Forall2 (fun url r =>
             explains fetch (endpoint service) (limiter_of service) hs
                      (callback_of options) url log' r) urls outs.
Proof.
  intros Hhs. rewrite (put_unfold _ _ _ _ _ _ _ Hhs). intros [= Hres <-].
  eapply batch_resolved; [| exact Hres].
  apply run_inv, start_inv.
Qed.

(** X10. A fulfilled entry is never made up: its value is the JSON body of
    a response with a status in 200-299 that the network gave to the request
    of the URL at the same index, and the callback was there and returned
    for that URL. *)
Theorem fulfilled_is_a_success_body
    fetch service urls options sched log hs outs log' i url v :
  PermaCache.headers (token service) = Normal hs ->
  PermaCache.put fetch service urls options sched log = (ResolvedP outs, log') ->
  urls !! i = Some url ->
  outs !! i = Some (Fulfilled v) ->
  exists h response callback h',
    fetch h (PermaCache.request_of hs (PermaCache.apiUrl (endpoint service) url))
    = Normal response
    /\ resp_ok response = true
    /\ resp_json response = Normal v
    /\ callback_of options = Some callback
    /\ callback h' url = Normal tt.
Proof.
  intros Hhs Hput Hu Hr.
  pose proof (put_resolved_explained _ _ _ _ _ _ _ _ _ Hhs Hput) as Hexp.
  pose proof (Forall2_lookup_lr _ _ _ _ _ _ Hexp Hu Hr) as H.
  inversion H as [| | h h' response r _ Hf Hres]; subst.
  exists h, response. simpl in Hres.
  destruct (resp_json response) as [res | e]; [| done].
  destruct (resp_ok response); simpl in Hres;
    [| by destruct (get_prop res "message")].
  destruct (callback_of options) as [callback |]; [| done].
  exists callback, h'.
  destruct (callback h' url) as [[] |] eqn:Hcb; [| done].
  injection Hres as ->. done.
Qed.

Lemma fulfilled_is_a_success_body_witness :
  exists h response callback h',
    Scenario.flaky "https://a/2" h
      (PermaCache.request_of
         [("Authorization", "Bearer secret"); ("X-Client", "nftstorage.link/js")]
         (PermaCache.apiUrl default_endpoint "https://a/1"))
    = Normal response
    /\ resp_ok response = true
    /\ resp_json response
       = Normal (JObj [("url", JStr (Scenario.api "https://a/1")); ("size", JNum 42)])
    /\ Some Scenario.progress = Some callback
    /\ callback h' "https://a/1" = Normal tt.
Proof.
  exact (fulfilled_is_a_success_body (Scenario.flaky "https://a/2") Scenario.service
           Scenario.urls
           (Some {| onCachedUrl := Some Scenario.progress; maxRetries := None |})
           (interleaved 2) [] _ _ _ 0 "https://a/1" _
           eq_refl eq_refl eq_refl eq_refl).
Defined.

(** X11. When the limiter refuses every call with the same error, a batch
    that has run to its end resolves with that rejection for every URL and
    has added nothing to the log: no request was sent and the callback was
    not called. *)
Theorem refused_batch_sends_nothing fetch service urls options sched log e :
  token_missing (token service) = false ->
  (forall h, await_limiter (limiter_of service) h = Throw e) ->
  complete (length urls) sched = true ->
  PermaCache.put fetch service urls options sched log
  = (ResolvedP (replicate (length urls) (Rejected e)), log).
Proof.
  intros Htok Hlim Hc. destruct (headers_present _ Htok) as (t & _ & Hhs).
  rewrite (put_unfold _ _ _ _ _ _ _ Hhs).
  set (hs := [("Authorization", "Bearer " +:+ t); ("X-Client", "nftstorage.link/js")]).
  set (waiting := fun t0 : Task =>
         (exists a, t_phase t0 = AwaitLimiter a) \/ t_phase t0 = Settled (Rejected e)).
  assert (forall sched' st,
             Forall waiting st.1 ->
             (PermaCache.run fetch (limiter_of service) hs (callback_of options)
                sched' st).2 = st.2
             /\ Forall waiting
                  (PermaCache.run fetch (limiter_of service) hs (callback_of options)
                     sched' st).1) as Hrun.
  { unfold PermaCache.run.
    induction sched' as [| i sched' IH]; intros st Hst; [done |].
    cbn [fold_left].
    assert ((PermaCache.resume_at fetch (limiter_of service) hs (callback_of options)
               st i).2 = st.2
            /\ Forall waiting
                 (PermaCache.resume_at fetch (limiter_of service) hs
                    (callback_of options) st i).1) as [Hlog Hw].
    { unfold PermaCache.resume_at. destruct (st.1 !! i) as [t0 |] eqn:Hi; [| done].
      pose proof (proj1 (Forall_lookup _ _) Hst i t0 Hi) as [[a Ha] | Ha];
        rewrite Ha; simpl; [rewrite Hlim |]; simpl;
        (split; [done |]); (apply Forall_insert; [done |]); by right. }
    destruct (IH _ Hw) as [Hlog' Hw']. split; [by rewrite Hlog', Hlog | done]. }
  destruct (Hrun sched (map (PermaCache.start (endpoint service)) urls, log))
    as [Hlog Hw].
  { apply Forall_map, Forall_forall. intros url _. left. by eexists. }
  rewrite Hlog. cbn [snd]. f_equal.
  destruct (pSettle_settled _ (complete_settles fetch (limiter_of service) hs
                (callback_of options) sched
                (map (PermaCache.start (endpoint service)) urls) log
                ltac:(by rewrite length_map)))
    as (outs & -> & Houts).
  f_equal. symmetry. apply replicate_as_Forall. split.
  - erewrite <- Forall2_length by exact Houts.
    rewrite run_length. cbn [fst]. apply length_map.
  - eapply Forall2_Forall_r; [exact Houts |].
    eapply Forall_impl; [exact Hw |]. intros t0 [[a Ha] | Ha] r Hr; congruence.
Qed.

Lemma refused_batch_sends_nothing_witness :
  PermaCache.put Scenario.healthy Cases.closed_service Scenario.urls None
    (one_by_one 2) []
  = (ResolvedP [Rejected (HostError "rate limit"); Rejected (HostError "rate limit")],
     []).
Proof.
  exact (refused_batch_sends_nothing Scenario.healthy Cases.closed_service
           Scenario.urls None (one_by_one 2) [] (HostError "rate limit")
           eq_refl (fun _ => eq_refl) eq_refl).
Defined.

(** X12. For a URL whose request is always answered with the same response,
    behind a limiter that lets every call pass: a body that is not JSON
    rejects the item with the error of [json()], whatever the status; with a
    status in 200-299 and a JSON body, the item is fulfilled with the body
    when the callback returns, and rejected with the callback's own error
    when the callback throws. *)
Theorem stable_answer_outcome fetch service urls options sched log hs i url response :
  PermaCache.headers (token service) = Normal hs ->
  (forall h, await_limiter (limiter_of service) h = Normal tt) ->
  complete (length urls) sched = true ->
  urls !! i = Some url ->
  (forall h,
      fetch h (PermaCache.request_of hs (PermaCache.apiUrl (endpoint service) url))
      = Normal response) ->
  exists outs r,
    (PermaCache.put fetch service urls options sched log).1 = ResolvedP outs
    /\ outs !! i = Some r
    /\ (forall e, resp_json response = Throw e -> r = Rejected e)
    /\ (forall res callback,
           resp_json response = Normal res ->
           resp_ok response = true ->
           callback_of options = Some callback ->
           (forall h, callback h url = Normal tt) -> r = Fulfilled res)
    /\ (forall res callback e,
           resp_json response = Normal res ->
           resp_ok response = true ->
           callback_of options = Some callback ->
           (forall h, callback h url = Throw e) -> r = Rejected e).
Proof.
  intros Hhs Hgrant Hc Hu Hresp.
  destruct (put_complete fetch service urls options sched log hs Hhs Hc)
    as (outs & new & Hput & Hexp & _).
  destruct (lookup_lt_is_Some_2 outs i) as [r Hr].
  { erewrite <- Forall2_length by exact Hexp. by eapply lookup_lt_Some. }
  exists outs, r. rewrite Hput. split; [done |]. split; [done |].
  pose proof (Forall2_lookup_lr _ _ _ _ _ _ Hexp Hu Hr) as H.
  inversion H as [h e Hlim | h e _ Hf | h h' response' r' _ Hf Hres]; subst.
  - by rewrite Hgrant in Hlim.
  - unfold request_for in Hf. by rewrite Hresp in Hf.
  - unfold request_for in Hf. rewrite Hresp in Hf. injection Hf as <-.
    simpl in Hres. repeat split.
    + intros e He. rewrite He in Hres. by injection Hres as <-.
    + intros res callback Hjson Hok Hcb Hret.
      rewrite Hjson, Hok, Hcb in Hres. simpl in Hres.
      rewrite Hret in Hres. by injection Hres as <-.
    + intros res callback e Hjson Hok Hcb Hthrow.
      rewrite Hjson, Hok, Hcb in Hres. simpl in Hres.
      rewrite Hthrow in Hres. by injection Hres as <-.
Qed.

Lemma stable_answer_outcome_witness :
  exists outs r,
    (PermaCache.put Scenario.healthy Scenario.service Scenario.urls
       (Some {| onCachedUrl := Some Cases.failing; maxRetries := None |})
       (interleaved 2) []).1 = ResolvedP outs
    /\ outs !! 1 = Some r
    /\ r = Rejected (HostError "progress bar").
Proof.
  destruct (stable_answer_outcome Scenario.healthy Scenario.service Scenario.urls
              (Some {| onCachedUrl := Some Cases.failing; maxRetries := None |})
              (interleaved 2) [] _ 1 "https://a/2" _
              eq_refl (fun _ => eq_refl) eq_refl eq_refl (fun _ => eq_refl))
    as (outs & r & Hput & Hr & _ & _ & Hthrow).
  exists outs, r. split; [exact Hput |]. split; [exact Hr |].
  exact (Hthrow _ _ _ eq_refl eq_refl eq_refl (fun _ => eq_refl)).
Defined.

(** ** More on [list] *)

(** X13. [list] never looks at the status of the response: once its request
    is answered with a JSON body other than [null], it resolves with that
    body exactly when the body's [ok] is truthy (so also on a status outside
    200-299), and rejects when [ok] is falsy or missing. *)
Theorem list_resolves_iff_ok_truthy fetch service options log hs response body ok :
  PermaCache.headers (token service) = Normal hs ->
  await_limiter (limiter_of service) log = Normal tt ->
  let request :=
    {| req_method := GET;
       req_url := URL_toString (new_URL "perma-cache/" (endpoint service));
       req_headers := hs |} in
  let log' := EvFetch request :: EvGrant (lim_id (limiter_of service)) :: log in
  fetch log' request = Normal response ->
  resp_json response = Normal body ->
  get_prop body "ok" = Normal ok ->
  if truthy ok
  then PermaCache.list_ fetch service options log = (ResolvedP body, log')
  else exists e, PermaCache.list_ fetch service options log = (RejectedP e, log').
Proof.
  intros Hhs Hlim request log' Hresp Hjson Hok.
  unfold PermaCache.list_. fold (limiter_of service).
  rewrite Hhs, Hlim. fold request. fold log'. rewrite Hresp, Hjson, Hok.
  destruct (truthy ok); simpl; [done |].
  destruct (get_prop body "error") as [err | e]; [| by eexists].
  destruct (get_prop err "message"); by eexists.
Qed.

Lemma list_resolves_iff_ok_truthy_witness :
  PermaCache.list_ Cases.contradictory Scenario.service None []
  = (ResolvedP (JObj [("ok", JNum 1); ("count", JNum 0)]),
     [EvFetch {| req_method := GET;
                 req_url := "https://api.nftstorage.link/perma-cache/";
                 req_headers := [("Authorization", "Bearer secret");
                                 ("X-Client", "nftstorage.link/js")] |};
      EvGrant 0]).
Proof.
  exact (list_resolves_iff_ok_truthy Cases.contradictory Scenario.service None []
           _ _ _ (JNum 1) eq_refl eq_refl eq_refl eq_refl eq_refl).
Defined.


(** ** The limiter of a service *)

Lemma put_grants fetch service urls options sched log id :
  EvGrant id ∈ (PermaCache.put fetch service urls options sched log).2 ->
  EvGrant id ∈ log \/ id = lim_id (limiter_of service).
Proof.
  intros Hid.
  destruct (PermaCache.headers (token service)) as [hs | e] eqn:Hhs.
  - destruct (put_events fetch service urls options sched log hs Hhs)
      as (new & Hlog & Hnew).
    rewrite Hlog in Hid. apply elem_of_app in Hid as [Hid | Hid]; [| by left].
    right. apply (proj1 (Forall_forall _ _)) with (x := EvGrant id) in Hnew; [| done].
    by inversion Hnew.
  - left. by rewrite (put_missing _ _ _ _ _ _ _ Hhs) in Hid.
Qed.

Lemma list_grants fetch service options log id :
  EvGrant id ∈ (PermaCache.list_ fetch service options log).2 ->
  EvGrant id ∈ log \/ id = lim_id (limiter_of service).
Proof.
  unfold PermaCache.list_. fold (limiter_of service).
  destruct (PermaCache.headers (token service)) as [hs | e]; simpl; [| by left].
  repeat case_match; simpl; intros Hid; auto;
    apply elem_of_cons in Hid as [Hid | Hid]; try discriminate;
    apply elem_of_cons in Hid as [[= ->] | Hid]; auto.
Qed.

(** X15. The methods of a constructed client wait on the limiter the
    client holds and on no other: the one given to the constructor, or else
    the one the constructor made; with a constructor that made its own, no
    grant of a client method is ever a grant of the limiter of the static
    operations. *)
Theorem client_waits_on_its_own_limiter
    fetch o heap client heap' urls options sched loptions log :
  PermaCache.constructor (Some o) heap = Normal (client, heap') ->
  heap_after_load <= heap ->
  let own := default (Throttle heap RATE_LIMIT_REQUESTS RATE_LIMIT_PERIOD)
                     (co_rateLimiter o) in
  rateLimiter client = Some own
  /\ (forall id,
         EvGrant id ∈ (Instance.put fetch client urls options sched log).2 ->
         EvGrant id ∈ log \/ id = lim_id own)
  /\ (forall id,
         EvGrant id ∈ (Instance.list_ fetch client loptions log).2 ->
         EvGrant id ∈ log \/ id = lim_id own)
  /\ (co_rateLimiter o = None -> lim_id own <> lim_id globalRateLimiter).
Proof.
  intros Hnew Hheap own.
  assert (rateLimiter client = Some own) as Hrl.
  { unfold PermaCache.constructor in Hnew. subst own.
    destruct (co_rateLimiter o); simpl in *; by injection Hnew as <- _. }
  assert (limiter_of client = own) as Hown.
  { unfold limiter_of. by rewrite Hrl. }
  split; [done |]. split; [| split].
  - intros id Hid. rewrite <- Hown. by eapply put_grants.
  - intros id Hid. rewrite <- Hown. by eapply list_grants.
  - intros Ho. subst own. rewrite Ho. simpl.
    unfold heap_after_load in Hheap. simpl in Hheap. lia.
Qed.

Lemma client_waits_on_its_own_limiter_witness :
  heap_after_load <= heap_after_load
  /\ forall id,
      EvGrant id ∈ (Instance.put Scenario.healthy
                      {| endpoint := default_endpoint; token := Some "secret";
                         rateLimiter := Some (Throttle 1 100%Z 60000%Z) |}
                      Scenario.urls None (one_by_one 2) []).2 ->
      EvGrant id ∈ [] \/ id = 1.
Proof.
  split; [lia |].
  exact (proj1 (proj2 (client_waits_on_its_own_limiter Scenario.healthy
                         Scenario.no_limiter heap_after_load _ _ Scenario.urls None
                         (one_by_one 2) None [] eq_refl ltac:(vm_compute; lia)))).
Defined.

(** X16. A client constructed without an endpoint sends the request of a
    URL other than [.] and [..] to
    [https://api.nftstorage.link/perma-cache/<encoded URL>]; a client
    constructed with an endpoint keeps it. *)
Theorem client_default_endpoint o heap client heap' url :
  PermaCache.constructor (Some o) heap = Normal (client, heap') ->
  dot_segment url = false ->
  endpoint client = default default_endpoint (co_endpoint o)
  /\ (co_endpoint o = None ->
      URL_toString (PermaCache.apiUrl (endpoint client) url)
      = "https://api.nftstorage.link/perma-cache/" +:+ encodeURIComponent url).
Proof.
  intros Hnew Hdot.
  assert (endpoint client = default default_endpoint (co_endpoint o)) as Hep.
  { unfold PermaCache.constructor in Hnew.
    destruct (co_rateLimiter o); simpl in *; by injection Hnew as <- _. }
  split; [done |]. intros Ho. rewrite Hep, Ho. simpl.
  by rewrite apiUrl_string.
Qed.

Lemma client_default_endpoint_witness :
  URL_toString (PermaCache.apiUrl default_endpoint "ipfs://bafy")
  = "https://api.nftstorage.link/perma-cache/ipfs%3A%2F%2Fbafy".
Proof.
  exact (proj2 (client_default_endpoint Scenario.no_limiter heap_after_load _ _
                  "ipfs://bafy" eq_refl eq_refl) eq_refl).
Defined.

(** ** When the promise of a batch resolves *)

Lemma run_nil fetch rl hs cb sched log :
  PermaCache.run fetch rl hs cb sched ([], log) = ([], log).
Proof. unfold PermaCache.run. induction sched as [| i sched IH]; [done |]. exact IH. Qed.

Lemma run_untouched fetch rl hs cb sched st i :
  occurrences i sched = 0 ->
  (PermaCache.run fetch rl hs cb sched st).1 !! i = st.1 !! i.
Proof.
  unfold PermaCache.run. revert st.
  induction sched as [| j sched IH]; intros st Hocc; [done |].
  cbn [occurrences] in Hocc. cbn [fold_left].
  destruct (Nat.eqb_spec i j) as [-> | Hne]; [lia |].
  rewrite IH by lia. unfold PermaCache.resume_at.
  destruct (st.1 !! j) as [t |]; [| done].
  destruct (PermaCache.resume fetch rl hs cb (t_url t) (t_phase t) st.2) as [ph log].
  cbn [fst]. apply list_lookup_insert_ne. congruence.
Qed.

(** X17. The empty batch resolves at once with the empty array, under
    every schedule, without a grant, a request or a callback. *)
Theorem put_empty_batch fetch service options sched log :
  token_missing (token service) = false ->
  PermaCache.put fetch service [] options sched log = (ResolvedP [], log).
Proof.
  intros Htok. destruct (headers_present _ Htok) as (t & _ & Hhs).
  rewrite (put_unfold _ _ _ _ _ _ _ Hhs). simpl. by rewrite run_nil.
Qed.

Lemma put_empty_batch_witness :
  PermaCache.put (Scenario.flaky "https://a/2") Scenario.service [] None [0; 1; 0] []
  = (ResolvedP [], []).
Proof.
  exact (put_empty_batch (Scenario.flaky "https://a/2") Scenario.service None
           [0; 1; 0] [] eq_refl).
Defined.

(** X18. There is no partial result: as long as one item of the batch has
    not been resumed, the promise of [put] is pending, however far the other
    items have come. *)
Theorem put_pending_until_all_settled fetch service urls options sched log i :
  token_missing (token service) = false ->
  i < length urls ->
  occurrences i sched = 0 ->
  (PermaCache.put fetch service urls options sched log).1 = Pending.
Proof.
  intros Htok Hi Hocc. destruct (headers_present _ Htok) as (t & _ & Hhs).
  rewrite (put_unfold _ _ _ _ _ _ _ Hhs). cbn [fst].
  destruct (lookup_lt_is_Some_2 urls i Hi) as [url Hurl].
  set (tasks := (PermaCache.run _ _ _ _ sched _).1).
  assert (tasks !! i = Some (PermaCache.start (endpoint service) url)) as Ht.
  { subst tasks. rewrite run_untouched by done. cbn [fst].
    by rewrite list_lookup_fmap, Hurl. }
  unfold pSettle. destruct (mapM settled tasks) as [outs |] eqn:Hm; [| done].
  apply mapM_Some in Hm.
  destruct (Forall2_lookup_l _ _ _ _ _ Hm Ht) as (r & _ & Hr). done.
Qed.

Lemma put_pending_until_all_settled_witness :
  (PermaCache.put Scenario.healthy Scenario.service Scenario.urls
     (Some {| onCachedUrl := Some Scenario.progress; maxRetries := None |})
     [0; 0; 0] []).1 = Pending.
Proof.
  exact (put_pending_until_all_settled Scenario.healthy Scenario.service
           Scenario.urls
           (Some {| onCachedUrl := Some Scenario.progress; maxRetries := None |})
           [0; 0; 0] [] 1 eq_refl ltac:(vm_compute; lia) eq_refl).
Defined.

(** ** A witness for the order of completion *)

Lemma put_order_independent_witness :
  (PermaCache.put Scenario.healthy Scenario.service Scenario.urls
     (Some {| onCachedUrl := Some Scenario.progress; maxRetries := None |})
     (one_by_one 2) []).1
  = (PermaCache.put Scenario.healthy Scenario.service Scenario.urls
       (Some {| onCachedUrl := Some Scenario.progress; maxRetries := None |})
       (interleaved 2) [EvGrant 0]).1.
Proof.
  exact (put_order_independent Scenario.healthy Scenario.service Scenario.urls
           (Some {| onCachedUrl := Some Scenario.progress; maxRetries := None |})
           (one_by_one 2) (interleaved 2) [] [EvGrant 0] _
           eq_refl (fun _ _ _ => eq_refl) (fun _ _ => eq_refl)
           (fun _ _ _ _ H => match H with eq_refl => eq_refl end)
           eq_refl eq_refl).
Defined.


(** ** The rate of the limiter *)

Example throttledQueue_example :
  throttledQueue 2 10 [] [0; 0; 0; 0; 0; 25]%Z = [25; 20; 10; 10; 0; 0]%Z.
Proof. reflexivity. Qed.











